(** * QUBO construction and solution post-processing

    A shallow embedding of the Python backend:
    - [knapsack.py]  : [build_knapsack_qubo] and its local helper [add_Q];
    - [decoders.py]  : the decoders and the feasibility checkers;
    - [main.py]      : [build_energy_histogram];
    - [solver.py]    : [SolverBase.__init__] and [_merge_config].

    Number model.  Python [int] is [Z].  A Python [float] is idealised as an
    exact rational ([Qc], canonical rationals with Leibniz equality): every
    statement below is about the mathematical value computed by the code,
    not about IEEE-754 rounding, NaN or signed zeros.  [math.log2] is the
    exact base-2 logarithm, so [math.ceil(math.log2 k)] is [Z.log2_up k].

    Containers.  The QUBO dictionary and the samples are finite maps
    ([gmap]); the dictionary of the histogram, whose iteration order feeds a
    sort, is an insertion-ordered association list. *)

From Stdlib Require Import ZArith QArith Qcanon Lia Sorted.
From stdpp Require Import gmap strings list fin_maps numbers pretty.

Local Open Scope Qc_scope.

(** ** Numbers *)

(** [float(n)] for a Python integer [n]. *)
Definition float_of_int (n : Z) : Qc := Qc_of_Z n.


(** [sum(...)] over numbers of type float. *)
Definition sumQ (l : list Qc) : Qc := foldr Qcplus 0 l.

(** [sum(...)] over Python integers. *)
Definition sumZ (l : list Z) : Z := foldr Z.add 0%Z l.

(** [enumerate(l)]: the elements of [l] paired with their positions. *)
Definition enumerate {A} (l : list A) : list (nat * A) := imap pair l.

(** [range(lo, hi)]. *)
Definition range (lo hi : nat) : list nat := seq lo (hi - lo).

(** ** knapsack.py *)

Module Knapsack.

(** The two [ValueError]s raised by the input checks. *)
Inductive ValueError : Set :=
| LengthMismatch        (* len(weights) != len(values) *)
| CapacityNotPositive.  (* capacity <= 0 *)

(** [add_Q(i, j, value)]: the closure mutates the dictionary [Q]; here the
    dictionary is passed in and the updated one returned. *)
Definition add_Q (Q : gmap (nat * nat) Qc) (i j : nat) (value : Qc)
  : gmap (nat * nat) Qc :=
  let '(i, j) := if (j <? i)%nat then (j, i) else (i, j) in
  match Q !! (i, j) with
  | Some c => <[(i, j) := c + value]> Q
  | None => <[(i, j) := value]> Q
  end.

(** [m_slack = math.ceil(math.log2(capacity + 1))], with [math.log2] taken
    as the exact logarithm (the rounding of [capacity + 1] and of the
    logarithm to a double, which matters from about [2^49] on, is not
    modelled). *)
Definition m_slack (capacity : Z) : nat :=
  Z.to_nat (Z.log2_up (capacity + 1)).

(** The coefficient array [a]: allocated as [[0.0] * (n_items + m_slack)],
    then written at [i] for every item and at [n_items + k] for every
    slack bit.  All writes are in range, so Python's [IndexError] cannot
    occur and the silent out-of-range behaviour of list insert is never
    exercised. *)
Definition coefficients (weights : list Z) (n_items m : nat) : list Qc :=
  let a := replicate (n_items + m) 0 in
  let a := foldl (fun a '(i, w) => <[i := float_of_int w]> a)
                 a (enumerate weights) in
  foldl (fun a k => <[(n_items + k)%nat := float_of_int (2 ^ Z.of_nat k)]> a)
        a (range 0 m).

(** The read [a[u]].  Every read below has [u < len(a)]; the default is
    never returned. *)
Definition item (a : list Qc) (u : nat) : Qc := default 0 (a !! u).

(** Loop 1: the objective, [add_Q(i, i, -float(v))]. *)
Definition objective_terms (values : list Qc) (Q : gmap (nat * nat) Qc) :=
  foldl (fun Q '(i, v) => add_Q Q i i (- v)) Q (enumerate values).

(** Loop 2: the diagonal terms of the squared constraint. *)
Definition diagonal_terms (a : list Qc) (capacity : Z) (penalty : Qc)
           (n : nat) (Q : gmap (nat * nat) Qc) :=
  foldl (fun Q u =>
           let au := item a u in
           let coeff := penalty * (au * au - 2 * float_of_int capacity * au) in
           add_Q Q u u coeff)
        Q (range 0 n).

(** Loop 3: the off-diagonal terms, [u < v]. *)
Definition offdiagonal_terms (a : list Qc) (penalty : Qc)
           (n : nat) (Q : gmap (nat * nat) Qc) :=
  foldl (fun Q u =>
           foldl (fun Q v =>
                    let coeff := 2 * penalty * item a u * item a v in
                    add_Q Q u v coeff)
                 Q (range (u + 1) n))
        Q (range 0 n).

Definition build_knapsack_qubo
           (weights : list Z) (values : list Qc) (capacity : Z) (penalty : Qc)
  : ValueError + gmap (nat * nat) Qc :=
  if negb (length weights =? length values)%nat then inl LengthMismatch
  else
    let n_items := length weights in
    if (capacity <=? 0)%Z then inl CapacityNotPositive
    else
      let m := m_slack capacity in
      let Q : gmap (nat * nat) Qc := ∅ in
      let Q := objective_terms values Q in
      let a := coefficients weights n_items m in
      let Q := diagonal_terms a capacity penalty (n_items + m) Q in
      let Q := offdiagonal_terms a penalty (n_items + m) Q in
      inr Q.

(** *** Notions used to state the properties of the builder *)







(** The coefficient of a pair, an absent key standing for 0. *)
Definition coefficient (Q : gmap (nat * nat) Qc) (k : nat * nat) : Qc :=
  default 0 (Q !! k).




(** The key under which [add_Q(i, j, _)] stores its contribution. *)
Definition canonical (i j : nat) : nat * nat :=
  if (j <? i)%nat then (j, i) else (i, j).

(** A sequence of [add_Q] calls, performed in order. *)
Definition add_all (Q : gmap (nat * nat) Qc) (calls : list (nat * nat * Qc)) :=
  foldl (fun Q '(i, j, v) => add_Q Q i j v) Q calls.

(** *** The JijModeling variant of the builder *)

(** [build_knapsack_qubo_jijmodeling]: the two input checks, then the
    JijModeling interpreter and OMMX's [to_qubo(uniform_penalty_weight=...)],
    an external conversion taken as the parameter [to_qubo]; it receives the
    instance data [v], [w], [W] and the penalty and returns [(qubo, offset)]. *)
Definition build_knapsack_qubo_jijmodeling
           (to_qubo : list Qc -> list Z -> Z -> Qc -> gmap (nat * nat) Qc * Qc)
           (weights : list Z) (values : list Qc) (capacity : Z) (penalty : Qc)
  : ValueError + gmap (nat * nat) Qc :=
  if negb (length weights =? length values)%nat then inl LengthMismatch
  else if (capacity <=? 0)%Z then inl CapacityNotPositive
  else
    let '(qubo, offset) := to_qubo values weights capacity penalty in
    inr qubo.

(** *** Further notions: selections, slack and the key set *)





(** The keys [(u, v)] with [u <= v < n], row by row. *)
Definition upper_cells (n : nat) : list (nat * nat) :=
  flat_map (fun u => map (pair u) (range u n)) (range 0 n).

End Knapsack.

(** ** decoders.py *)

Module Decoders.

(** [sample.get(u, 0) == 1]: a missing key reads as 0. *)
Definition selected (sample : gmap nat Z) (u : nat) : bool :=
  (default 0 (sample !! u) =? 1)%Z.

(** Both decoders index Python lists; [None] stands for the [IndexError]
    of an out-of-range read. *)
Definition decode_assignment_solution
           (sample : gmap nat Z) (costs : list (list Qc))
  : option (list (nat * nat) * Qc) :=
  let n_workers := length costs in
  row0 ← costs !! 0%nat;
  let n_jobs := length row0 in
  let var_index (i j : nat) : nat := (i * n_jobs + j)%nat in
  let assignments :=
    foldl (fun acc i =>
             foldl (fun acc j =>
                      let u := var_index i j in
                      if selected sample u then acc ++ [(i, j)] else acc)
                   acc (range 0 n_jobs))
          [] (range 0 n_workers) in
  cs ← mapM (fun '(i, j) => row ← costs !! i; row !! j) assignments;
  Some (assignments, sumQ cs).

Definition decode_knapsack_solution
           (sample : gmap nat Z) (weights : list Z) (values : list Qc)
  : option (list nat * Z * Qc) :=
  let n_items := length weights in
  let chosen_items :=
    List.filter (fun i => selected sample i) (range 0 n_items) in
  ws ← mapM (fun i => weights !! i) chosen_items;
  vs ← mapM (fun i => values !! i) chosen_items;
  Some (chosen_items, sumZ ws, sumQ vs).

Definition check_knapsack_constraints
           (sample : gmap nat Z) (weights : list Z) (capacity : Z)
  : option (bool * Z) :=
  ws ← mapM (fun i => weights !! i)
            (List.filter (fun i => selected sample i)
                         (range 0 (length weights)));
  let total_weight := sumZ ws in
  let feasible := (total_weight <=? capacity)%Z in
  Some (feasible, total_weight).

(** *** Notions used to state the properties of the decoders *)

(** A sample extended with an explicit 0 entry for every key of [K],
    [{**sample, **{k: 0 for k in K}}]. *)
Definition with_zeros (sample : gmap nat Z) (K : gset nat) : gmap nat Z :=
  gset_to_gmap 0%Z K ∪ sample.

(** The elements of [xs] whose position, counted from [s], satisfies [p]. *)
Fixpoint picked {A} (p : nat -> bool) (s : nat) (xs : list A) : list A :=
  match xs with
  | [] => []
  | x :: xs' => if p s then x :: picked p (S s) xs' else picked p (S s) xs'
  end.

(** The selected weight, written as the sum over all items of
    [weights[i] * x_i]. *)
Definition selected_weight (sample : gmap nat Z) (weights : list Z) : Z :=
  sumZ (imap (fun i w => if selected sample i then w else 0%Z) weights).

(** *** The feasibility check of the assignment problem *)

(** [counts[i] += 1]. *)
Definition bump (counts : list Z) (i : nat) : list Z :=
  alter (fun c => (c + 1)%Z) i counts.

Definition check_assignment_constraints
           (sample : gmap nat Z) (costs : list (list Qc))
  : option (bool * list Z * list Z) :=
  let n_workers := length costs in
  row0 ← costs !! 0%nat;
  let n_jobs := length row0 in
  let var_index (i j : nat) : nat := (i * n_jobs + j)%nat in
  let worker_counts := replicate n_workers 0%Z in
  let job_counts := replicate n_jobs 0%Z in
  let '(worker_counts, job_counts) :=
    foldl (fun st i =>
             foldl (fun '(worker_counts, job_counts) j =>
                      let u := var_index i j in
                      if selected sample u
                      then (bump worker_counts i, bump job_counts j)
                      else (worker_counts, job_counts))
                   st (range 0 n_jobs))
          (worker_counts, job_counts) (range 0 n_workers) in
  let feasible :=
    forallb (fun c => (c =? 1)%Z) worker_counts
    && forallb (fun c => (c =? 1)%Z) job_counts in
  Some (feasible, worker_counts, job_counts).

(** The cells of an [n_workers] by [n_jobs] matrix in row-major order. *)
Definition cells (n_workers n_jobs : nat) : list (nat * nat) :=
  flat_map (fun i => map (pair i) (range 0 n_jobs)) (range 0 n_workers).

(** The cells whose variable is selected. *)
Definition selected_cells (sample : gmap nat Z) (n_workers n_jobs : nat)
  : list (nat * nat) :=
  List.filter (fun p => selected sample (p.1 * n_jobs + p.2)) (cells n_workers n_jobs).

(** The number of jobs selected for worker [i], of workers for job [j]. *)
Definition jobs_of (sample : gmap nat Z) (n_jobs i : nat) : Z :=
  Z.of_nat (length (List.filter (fun j => selected sample (i * n_jobs + j))
                                (range 0 n_jobs))).

Definition workers_of (sample : gmap nat Z) (n_workers n_jobs j : nat) : Z :=
  Z.of_nat (length (List.filter (fun i => selected sample (i * n_jobs + j))
                                (range 0 n_workers))).

(** [costs[i][j]], 0 standing in for an out-of-range read. *)
Definition cost_at (costs : list (list Qc)) (p : nat * nat) : Qc :=
  default 0 (costs !! p.1 ≫= fun row => row !! p.2).

End Decoders.

(** ** main.py *)

Module Main.

(** One row of [sampleset.record]. *)
Record Row := { rec_energy : Qc; rec_num_occurrences : Z }.

Record EnergyBin := { energy : Qc; count : Z }.

(** [energy_counts[e] += c] on a [defaultdict(int)]: an existing key keeps
    its place, a new key is appended with [0 + c]. *)
Fixpoint increment (d : list (Qc * Z)) (e : Qc) (c : Z) : list (Qc * Z) :=
  match d with
  | [] => [(e, (0 + c)%Z)]
  | (k, n) :: d' =>
      if decide (k = e) then (k, (n + c)%Z) :: d'
      else (k, n) :: increment d' e c
  end.

(** [sorted(xs, key=f)] and [xs.sort(key=f)] for a float-valued key:
    ascending and stable (an element goes in front of the first later
    element whose key is not smaller). *)
Fixpoint insert_by {A} (key : A -> Qc) (x : A) (xs : list A) : list A :=
  match xs with
  | [] => [x]
  | y :: ys =>
      if decide (key x ≤ key y) then x :: y :: ys
      else y :: insert_by key x ys
  end.

Definition sorted {A} (key : A -> Qc) (xs : list A) : list A :=
  foldr (insert_by key) [] xs.

Definition build_energy_histogram (record : list Row) : list EnergyBin :=
  let energies := map rec_energy record in
  let counts := map rec_num_occurrences record in
  let energy_counts :=
    foldl (fun d '(e, c) => increment d e c) [] (zip energies counts) in
  let sorted_items := sorted fst energy_counts in
  let bins := map (fun '(e, c) => {| energy := e; count := c |}) sorted_items in
  sorted energy bins.

(** *** Notions used to state the properties of the histogram *)

(** The count stored in the dictionary under the energy [e], 0 when the
    key is absent. *)
Definition stored_count (d : list (Qc * Z)) (e : Qc) : Z :=
  sumZ (map snd (List.filter (fun p => bool_decide (p.1 = e)) d)).

(** The total occurrence count of the records whose energy is [e]. *)
Definition occurrences_of (e : Qc) (record : list Row) : Z :=
  sumZ (map rec_num_occurrences
            (List.filter (fun r => bool_decide (rec_energy r = e)) record)).

(** The bins read back as records. *)
Definition rows_of (bins : list EnergyBin) : list Row :=
  map (fun b => {| rec_energy := energy b; rec_num_occurrences := count b |}) bins.

End Main.

(** ** solver.py *)

Module Solver.

(** The values a configuration entry may hold ([Any]). *)
Inductive Any : Type :=
| PyNone
| PyBool (b : bool)
| PyInt (n : Z)
| PyFloat (x : Qc)
| PyStr (s : string).

Record SolverBase := { sample_config : gmap string Any }.

(** [SolverBase.__init__]. *)
Definition SolverBase_init : SolverBase :=
  {| sample_config := {[ "num_reads" := PyInt 10 ]} |}.

(** [{**self.sample_config, **sample_config}]: the later unpacking wins. *)
Definition _merge_config (self : SolverBase)
           (sample_config : option (gmap string Any)) : gmap string Any :=
  match sample_config with
  | None => self.(Solver.sample_config)
  | Some cfg => cfg ∪ self.(Solver.sample_config)
  end.

End Solver.

(** ** assignments.py *)

Module Assignments.

(** The two [ValueError]s of the input checks. *)
Inductive ValueError : Set :=
| EmptyCosts    (* not costs *)
| RaggedCosts.  (* some row is not as long as the first *)

(** A row of the constraint table of the OMMX instance. *)
Record Constraint := { id : nat; name : string }.

(** The OMMX instance built by the JijModeling interpreter, through what
    the builder uses of it: the constraint table and
    [to_qubo(penalty_weights=...)], which returns [(qubo, offset)]. *)
Record Instance := {
  constraints : list Constraint;
  to_qubo : gmap nat Qc -> gmap (nat * nat) Qc * Qc
}.

(** The loop that fills [penalty_weights]. *)
Definition penalty_weights (constraints : list Constraint)
           (penalty_row penalty_col : Qc) : gmap nat Qc :=
  foldl (fun penalty_weights c =>
           let cid := id c in
           let name := name c in
           if String.eqb name "row_onehot"
           then <[cid := penalty_row]> penalty_weights
           else if String.eqb name "col_onehot"
                then <[cid := penalty_col]> penalty_weights
                else penalty_weights)
        ∅ constraints.

(** [build_assignment_qubo_jijmodeling]; [eval_problem] stands for the
    JijModeling model and interpreter applied to the instance data. *)
Definition build_assignment_qubo_jijmodeling
           (eval_problem : list (list Qc) -> Instance)
           (costs : list (list Qc)) (penalty_row penalty_col : Qc)
  : ValueError + gmap (nat * nat) Qc :=
  match costs with
  | [] => inl EmptyCosts
  | row0 :: _ =>
      let n_jobs := length row0 in
      if existsb (fun row => negb (length row =? n_jobs)%nat) costs
      then inl RaggedCosts
      else
        let instance := eval_problem costs in
        let penalty_weights :=
          penalty_weights (constraints instance) penalty_row penalty_col in
        let '(qubo, offset) := to_qubo instance penalty_weights in
        inr qubo
  end.

End Assignments.

(** ** solver.py: the solver classes *)

Module Solvers.
Import Solver.

(** A raised Python exception, by class, with its message. *)
Inductive Exception : Type :=
| HTTPException (status_code : Z) (detail : string)
| ValueError (message : string)
| RuntimeError (message : string)
| IndexError.

(** [try: x except: ...] is a match on a sum; [x ← e; k] on sums. *)
Definition and_then {E A B} (x : E + A) (k : A -> E + B) : E + B :=
  match x with
  | inl e => inl e
  | inr a => k a
  end.

(** The external libraries (OpenJij, dimod, D-Wave, minorminer) as the code
    uses them.  Their objects are abstract; calls that the code checks or
    guards carry their outcome: the [DWaveSampler] constructor may raise a
    [RuntimeError] ([inl] holds its message), [embed_bqm] and
    [unembed_sampleset] may return an object of another class ([None]).
    Other exceptions raised inside the libraries are outside the model. *)
Record Library (Sampler BQM Response SampleSet : Type) := {
  DWaveSampler : string -> string -> string -> string + Sampler;
  edgelist : Sampler -> list (nat * nat);
  sample : Sampler -> BQM -> gmap string Any -> Response;
  sa_sample_qubo : gmap (nat * nat) Qc -> gmap string Any -> SampleSet;
  sqa_sample_qubo : gmap (nat * nat) Qc -> gmap string Any -> SampleSet;
  from_qubo : gmap (nat * nat) Qc -> BQM;
  quadratic_keys : BQM -> list (nat * nat);
  variables : BQM -> gset nat;
  find_embedding : list (nat * nat) -> list (nat * nat) -> gmap nat (list nat);
  embed_bqm : BQM -> gmap nat (list nat) -> Sampler -> option BQM;
  unembed_sampleset : Response -> gmap nat (list nat) -> BQM -> option SampleSet;
  steepest_descent : BQM -> SampleSet -> SampleSet
}.

Arguments DWaveSampler {_ _ _ _}.
Arguments edgelist {_ _ _ _}.
Arguments sample {_ _ _ _}.
Arguments sa_sample_qubo {_ _ _ _}.
Arguments sqa_sample_qubo {_ _ _ _}.
Arguments from_qubo {_ _ _ _}.
Arguments quadratic_keys {_ _ _ _}.
Arguments variables {_ _ _ _}.
Arguments find_embedding {_ _ _ _}.
Arguments embed_bqm {_ _ _ _}.
Arguments unembed_sampleset {_ _ _ _}.
Arguments steepest_descent {_ _ _ _}.

(** The three solver classes; each object holds the [sample_config] set by
    [SolverBase.__init__]. *)
Inductive solver (Sampler : Type) : Type :=
| SASolver (self : SolverBase)
| SQASolver (use_greedy : bool) (self : SolverBase)
| QASolver (sampler : Sampler) (use_greedy : bool) (self : SolverBase).

Arguments SASolver {_}.
Arguments SQASolver {_}.
Arguments QASolver {_}.

Definition base {Sampler} (s : solver Sampler) : SolverBase :=
  match s with
  | SASolver self | SQASolver _ self | QASolver _ _ self => self
  end.

(** Truthiness of [os.getenv(...)]: set and not empty. *)
Definition truthy (v : option string) : bool :=
  match v with
  | Some s => negb (String.eqb s "")
  | None => false
  end.

(** [QASolver.__init__]; [env] is the process environment once
    [load_dotenv] has run.  [inl m] is [RuntimeError(m)]. *)
Definition QASolver_init {Sampler BQM Response SampleSet}
           (lib : Library Sampler BQM Response SampleSet)
           (env : gmap string string) (use_greedy : bool)
  : string + solver Sampler :=
  let solver_name := env !! "DWAVE_SOLVER_NAME" in
  let token := env !! "DWAVE_API_TOKEN" in
  let endpoint := env !! "DWAVE_API_ENDPOINT" in
  if negb (truthy solver_name && truthy token && truthy endpoint) then
    inl ("D-Wave の環境変数 (DWAVE_SOLVER_NAME, DWAVE_API_TOKEN, "
         +:+ "DWAVE_API_ENDPOINT) が設定されていません。")
  else
    and_then (DWaveSampler lib (default "" solver_name) (default "" token)
                           (default "" endpoint))
             (fun sampler => inr (QASolver sampler use_greedy SolverBase_init)).

Definition _find_embedding {Sampler BQM Response SampleSet}
           (lib : Library Sampler BQM Response SampleSet)
           (sampler : Sampler) (bqm : BQM)
  : Exception + gmap nat (list nat) :=
  let logical_edges := quadratic_keys lib bqm in
  let hardware_edges := edgelist lib sampler in
  let emb := find_embedding lib logical_edges hardware_edges in
  if bool_decide (emb = ∅) then inl (ValueError "No embedding found.")
  else
    let logical_vars := variables lib bqm in
    if negb (bool_decide (dom emb = logical_vars)) then
      inl (ValueError "Embedding does not cover all logical variables.")
    else inr emb.

Definition _embed_bqm {Sampler BQM Response SampleSet}
           (lib : Library Sampler BQM Response SampleSet)
           (sampler : Sampler) (bqm : BQM) (embedding : gmap nat (list nat))
  : Exception + BQM :=
  match embed_bqm lib bqm embedding sampler with
  | Some embedded_bqm => inr embedded_bqm
  | None =>
      inl (ValueError
             "Embedding failed, resulting object is not a BinaryQuadraticModel.")
  end.

Definition _solve_with_advantage {Sampler BQM Response SampleSet}
           (lib : Library Sampler BQM Response SampleSet)
           (sampler : Sampler) (use_greedy : bool) (self : SolverBase)
           (Q : gmap (nat * nat) Qc) (sample_config : option (gmap string Any))
  : Exception + SampleSet :=
  let cfg := _merge_config self sample_config in
  let bqm := from_qubo lib Q in
  and_then (_find_embedding lib sampler bqm) (fun embedding =>
  and_then (_embed_bqm lib sampler bqm embedding) (fun embedded_bqm =>
  let response := sample lib sampler embedded_bqm cfg in
  match unembed_sampleset lib response embedding bqm with
  | None =>
      inl (ValueError "Unembedding failed, resulting object is not a SampleSet.")
  | Some sampleset =>
      let sampleset :=
        if use_greedy then steepest_descent lib bqm sampleset else sampleset in
      inr sampleset
  end)).

(** [solver.solve(Q, sample_config)], by class. *)
Definition solve {Sampler BQM Response SampleSet}
           (lib : Library Sampler BQM Response SampleSet)
           (s : solver Sampler)
           (Q : gmap (nat * nat) Qc) (sample_config : option (gmap string Any))
  : Exception + SampleSet :=
  match s with
  | SASolver self =>
      let cfg := _merge_config self sample_config in
      inr (sa_sample_qubo lib Q cfg)
  | SQASolver use_greedy self =>
      let cfg := _merge_config self sample_config in
      let sampleset := sqa_sample_qubo lib Q cfg in
      let sampleset :=
        if use_greedy then steepest_descent lib (from_qubo lib Q) sampleset
        else sampleset in
      inr sampleset
  | QASolver sampler use_greedy self =>
      _solve_with_advantage lib sampler use_greedy self Q sample_config
  end.

End Solvers.

(** ** main.py: the request handlers *)

Module Api.
Import Knapsack Decoders Main Solver Solvers.

Record ConstraintCheck := {
  cc_name : string;
  satisfied : bool;
  value : Qc;
  bound : option Qc;
  detail : option string
}.

Record AssignmentRequest := {
  a_costs : list (list Qc);
  a_solver : string;
  a_num_reads : Z;
  penalty_row : Qc;
  penalty_col : Qc;
  a_use_greedy : bool
}.

Record AssignmentResponse := {
  assignments : list (nat * nat);
  total_cost : Qc;
  ar_solver : string;
  ar_energy_histogram : list EnergyBin;
  ar_feasible : bool;
  ar_constraints : list ConstraintCheck
}.

Record KnapsackRequest := {
  k_weights : list Z;
  k_values : list Qc;
  k_capacity : Z;
  k_solver : string;
  k_num_reads : Z;
  k_penalty : Qc;
  k_use_greedy : bool
}.

Record KnapsackResponse := {
  chosen_items : list nat;
  total_weight : Z;
  total_value : Qc;
  kr_solver : string;
  kr_energy_histogram : list EnergyBin;
  kr_feasible : bool;
  kr_constraints : list ConstraintCheck
}.

(** What the handlers use beyond the solver libraries: the environment, the
    two JijModeling conversions, and of a sample set its [record] and
    [first.sample] (which raises on an empty set). *)
Record World (Sampler BQM Response SampleSet : Type) := {
  lib : Library Sampler BQM Response SampleSet;
  env : gmap string string;
  eval_problem : list (list Qc) -> Assignments.Instance;
  knapsack_to_qubo : list Qc -> list Z -> Z -> Qc -> gmap (nat * nat) Qc * Qc;
  record : SampleSet -> list Row;
  first_sample : SampleSet -> Exception + gmap nat Z
}.

Arguments lib {_ _ _ _}.
Arguments env {_ _ _ _}.
Arguments eval_problem {_ _ _ _}.
Arguments knapsack_to_qubo {_ _ _ _}.
Arguments record {_ _ _ _}.
Arguments first_sample {_ _ _ _}.

Definition get_solver {Sampler BQM Response SampleSet}
           (w : World Sampler BQM Response SampleSet)
           (name : string) (use_greedy : bool)
  : Exception + solver Sampler :=
  if String.eqb name "sa" then inr (SASolver SolverBase_init)
  else if String.eqb name "sqa" then inr (SQASolver use_greedy SolverBase_init)
  else if String.eqb name "qa" then
    match QASolver_init (lib w) (env w) use_greedy with
    | inr s => inr s
    | inl e => inl (HTTPException 500 e)
    end
  else inl (HTTPException 400 ("Unknown solver: " +:+ name)).

(** The messages of the builders' [ValueError]s. *)
Definition knapsack_error (e : Knapsack.ValueError) : Exception :=
  match e with
  | LengthMismatch => ValueError "weights と values の長さが一致していません。"
  | CapacityNotPositive => ValueError "capacity は正の整数である必要があります。"
  end.

Definition assignment_error (e : Assignments.ValueError) : Exception :=
  match e with
  | Assignments.EmptyCosts =>
      ValueError "costs が空です。少なくとも 1 行は必要です。"
  | Assignments.RaggedCosts =>
      ValueError "costs の各行の長さが一致していません。矩形行列である必要があります。"
  end.

(** A builder's or decoder's result inside a handler. *)
Definition raising {E A} (f : E -> Exception) (x : E + A) : Exception + A :=
  match x with
  | inl e => inl (f e)
  | inr a => inr a
  end.

Definition indexing {A} (x : option A) : Exception + A :=
  match x with
  | Some a => inr a
  | None => inl IndexError
  end.

Definition worker_check (i : nat) (c : Z) : ConstraintCheck :=
  {| cc_name := "Worker_" +:+ pretty i +:+ "_assignment";
     satisfied := (c =? 1)%Z;
     value := Qc_of_Z c;
     bound := Some 1;
     detail := Some ("Assigned to " +:+ pretty c +:+ " jobs") |}.

Definition job_check (j : nat) (c : Z) : ConstraintCheck :=
  {| cc_name := "Job_" +:+ pretty j +:+ "_assignment";
     satisfied := (c =? 1)%Z;
     value := Qc_of_Z c;
     bound := Some 1;
     detail := Some ("Assigned to " +:+ pretty c +:+ " workers") |}.

Definition solve_assignment {Sampler BQM Response SampleSet}
           (w : World Sampler BQM Response SampleSet) (req : AssignmentRequest)
  : Exception + AssignmentResponse :=
  if match a_costs req with
     | [] => true
     | row0 :: _ => match row0 with [] => true | _ => false end
     end
  then inl (HTTPException 400 "costs が空です。")
  else
    and_then (raising assignment_error
                (Assignments.build_assignment_qubo_jijmodeling
                   (eval_problem w) (a_costs req) (penalty_row req) (penalty_col req)))
             (fun Q =>
    and_then (get_solver w (a_solver req) (a_use_greedy req)) (fun solver =>
    and_then (solve (lib w) solver Q
                    (Some {[ "num_reads" := PyInt (a_num_reads req) ]}))
             (fun sampleset =>
    and_then (first_sample w sampleset) (fun best_sample =>
    and_then (indexing (decode_assignment_solution best_sample (a_costs req)))
             (fun '(assignments, total_cost) =>
    let energy_histogram := build_energy_histogram (record w sampleset) in
    and_then (indexing (check_assignment_constraints best_sample (a_costs req)))
             (fun '(feasible, worker_counts, job_counts) =>
    let constraints := [] in
    let constraints := constraints ++ imap worker_check worker_counts in
    let constraints := constraints ++ imap job_check job_counts in
    inr {| assignments := assignments;
           total_cost := total_cost;
           ar_solver := a_solver req;
           ar_energy_histogram := energy_histogram;
           ar_feasible := feasible;
           ar_constraints := constraints |})))))).

Definition solve_knapsack {Sampler BQM Response SampleSet}
           (w : World Sampler BQM Response SampleSet) (req : KnapsackRequest)
  : Exception + KnapsackResponse :=
  if negb (length (k_weights req) =? length (k_values req))%nat
  then inl (HTTPException 400 "weights と values の長さが一致していません。")
  else
    and_then (raising knapsack_error
                (Knapsack.build_knapsack_qubo_jijmodeling
                   (knapsack_to_qubo w) (k_weights req) (k_values req)
                   (k_capacity req) (k_penalty req)))
             (fun Q =>
    and_then (get_solver w (k_solver req) (k_use_greedy req)) (fun solver =>
    and_then (solve (lib w) solver Q
                    (Some {[ "num_reads" := PyInt (k_num_reads req) ]}))
             (fun sampleset =>
    and_then (first_sample w sampleset) (fun best_sample =>
    and_then (indexing (decode_knapsack_solution best_sample (k_weights req)
                                                 (k_values req)))
             (fun '(chosen_items, total_weight, total_value) =>
    let energy_histogram := build_energy_histogram (record w sampleset) in
    and_then (indexing (check_knapsack_constraints best_sample (k_weights req)
                                                   (k_capacity req)))
             (fun '(feasible, total_weight_check) =>
    let constraints := [] in
    let constraints :=
      constraints
      ++ [ {| cc_name := "Weight_constraint";
              satisfied := feasible;
              value := Qc_of_Z total_weight_check;
              bound := Some (Qc_of_Z (k_capacity req));
              detail := Some ("Total weight " +:+ pretty total_weight_check
                              +:+ " / Capacity " +:+ pretty (k_capacity req)) |} ] in
    inr {| chosen_items := chosen_items;
           total_weight := total_weight;
           total_value := total_value;
           kr_solver := k_solver req;
           kr_energy_histogram := energy_histogram;
           kr_feasible := feasible;
           kr_constraints := constraints |})))))).

(** A world for the examples: no D-Wave variable is set, the conversions
    return an empty QUBO and every sampler the same sample set, given by its
    records and its best sample. *)
Definition example_world (rows : list Row) (best : gmap nat Z)
  : World unit unit unit unit :=
  {| lib := {| DWaveSampler := fun _ _ _ => inr tt;
               edgelist := fun _ => [];
               sample := fun _ _ _ => tt;
               sa_sample_qubo := fun _ _ => tt;
               sqa_sample_qubo := fun _ _ => tt;
               from_qubo := fun _ => tt;
               quadratic_keys := fun _ => [];
               variables := fun _ => ∅;
               find_embedding := fun _ _ => ∅;
               embed_bqm := fun _ _ _ => Some tt;
               unembed_sampleset := fun _ _ _ => Some tt;
               steepest_descent := fun _ s => s |};
     env := ∅;
     eval_problem := fun _ => {| Assignments.constraints := [];
                                 Assignments.to_qubo := fun _ => (∅, 0) |};
     knapsack_to_qubo := fun _ _ _ _ => (∅, 0);
     record := fun _ => rows;
     first_sample := fun _ => inr best |}.

End Api.

(** * Properties *)

Import Knapsack.

Section Energy.
Context (z : nat -> bool).
Implicit Types (Q : gmap (nat * nat) Qc) (k : nat * nat).



End Energy.






Lemma range_0_S n : range 0 (S n) = range 0 n ++ [n].
Proof. unfold range. rewrite !Nat.sub_0_r, seq_S. done. Qed.



Lemma elem_of_range lo hi u : u ∈ range lo hi <-> (lo <= u < hi)%nat.
Proof. unfold range. rewrite elem_of_seq. lia. Qed.

Section Square.
Context (a b : nat -> Qc) (P C : Qc).
Hypothesis b_idem : forall u, b u * b u = b u.


End Square.














Lemma add_Q_insert Q i j v :
  add_Q Q i j v = <[canonical i j := coefficient Q (canonical i j) + v]> Q.
Proof.
  unfold add_Q, canonical, coefficient.
  destruct (j <? i)%nat.
  - destruct (Q !! (j, i)); simpl; f_equal; ring.
  - destruct (Q !! (i, j)); simpl; f_equal; ring.
Qed.

Lemma canonical_sym i j : canonical j i = canonical i j.
Proof.
  unfold canonical.
  destruct (Nat.ltb_spec j i), (Nat.ltb_spec i j); try done; try lia.
  f_equal; lia.
Qed.

Lemma canonical_le i j : (i <= j)%nat -> canonical i j = (i, j).
Proof. intros H. unfold canonical. destruct (Nat.ltb_spec j i); [lia | done]. Qed.

Lemma canonical_ordered i j : ((canonical i j).1 <= (canonical i j).2)%nat.
Proof. unfold canonical. destruct (Nat.ltb_spec j i); simpl; lia. Qed.

Lemma coefficient_add_Q Q i j v k :
  coefficient (add_Q Q i j v) k
  = if decide (k = canonical i j) then coefficient Q k + v else coefficient Q k.
Proof.
  rewrite add_Q_insert. unfold coefficient at 1.
  rewrite lookup_insert. destruct (decide (canonical i j = k)) as [<-|Hne].
  - rewrite decide_True by done. done.
  - rewrite decide_False by done. done.
Qed.

Lemma lookup_add_Q Q i j v k :
  add_Q Q i j v !! k
  = if decide (k = canonical i j) then Some (coefficient Q k + v) else Q !! k.
Proof.
  rewrite add_Q_insert, lookup_insert.
  destruct (decide (canonical i j = k)) as [<-|Hne].
  - by rewrite decide_True.
  - by rewrite decide_False.
Qed.

Lemma add_Q_comm Q i j v i' j' v' :
  add_Q (add_Q Q i j v) i' j' v' = add_Q (add_Q Q i' j' v') i j v.
Proof.
  apply map_eq. intros k. rewrite !lookup_add_Q, !coefficient_add_Q.
  repeat case_decide; try done. f_equal. ring.
Qed.

Lemma add_all_permutation calls calls' :
  calls ≡ₚ calls' -> forall Q, add_all Q calls = add_all Q calls'.
Proof.
  unfold add_all.
  induction 1 as [|[[i j] v] l l' _ IH|[[i j] v] [[i' j'] v'] l|l1 l2 l3 _ IH1 _ IH2];
    intros Q; simpl.
  - done.
  - apply IH.
  - by rewrite add_Q_comm.
  - by rewrite IH1.
Qed.

Lemma coefficient_add_all k calls : forall Q,
  Forall (fun c => canonical c.1.1 c.1.2 = k) calls ->
  coefficient (add_all Q calls) k = coefficient Q k + sumQ (map snd calls).
Proof.
  unfold add_all.
  induction calls as [|[[i j] v] calls IH]; intros Q Hall; simpl; [ring|].
  apply Forall_cons_1 in Hall as [Hk Hrest]. simpl in Hk.
  rewrite IH by done. rewrite coefficient_add_Q, decide_True by done. ring.
Qed.

Lemma dom_add_Q Q i j v : dom (add_Q Q i j v) = {[canonical i j]} ∪ dom Q.
Proof. rewrite add_Q_insert. apply dom_insert_L. Qed.


Lemma is_Some_foldl {X} (k : nat * nat)
      (step : gmap (nat * nat) Qc -> X -> gmap (nat * nat) Qc) (hit : X -> Prop) :
  (forall Q x, is_Some (step Q x !! k) <-> is_Some (Q !! k) \/ hit x) ->
  forall l Q, is_Some (foldl step Q l !! k) <-> is_Some (Q !! k) \/ Exists hit l.
Proof.
  intros Hstep l. induction l as [|x l IH]; intros Q; simpl.
  - rewrite Exists_nil. tauto.
  - rewrite IH, Hstep, Exists_cons. tauto.
Qed.

Lemma is_Some_add_Q Q i j v k :
  is_Some (add_Q Q i j v !! k) <-> is_Some (Q !! k) \/ k = canonical i j.
Proof.
  rewrite lookup_add_Q. case_decide as H.
  - split; [by right | intros _; by eexists].
  - split; [by left | by intros [?|?]].
Qed.




Lemma canonical_diag u : canonical u u = (u, u).
Proof. apply canonical_le. lia. Qed.






(** *** The key set of the QUBO *)

Lemma is_Some_objective values Q u v :
  is_Some (objective_terms values Q !! (u, v))
  <-> is_Some (Q !! (u, v)) \/ (u = v /\ (u < length values)%nat).
Proof.
  unfold objective_terms, enumerate.
  rewrite (is_Some_foldl (u, v) _ (fun p => (u, v) = canonical p.1 p.1)).
  2:{ intros Q' [i x]. apply is_Some_add_Q. }
  apply or_iff_compat_l. rewrite list.Exists_exists. split.
  - intros ([i x] & Hin & Hk). apply elem_of_lookup_imap in Hin as (i' & x' & [= -> ->] & Hl).
    simpl in Hk. rewrite canonical_diag in Hk. injection Hk as -> ->.
    split; [done|]. by apply lookup_lt_Some in Hl.
  - intros [<- Hlt]. destruct (lookup_lt_is_Some_2 values u Hlt) as [x Hx].
    exists (u, x). split; [|simpl; by rewrite canonical_diag].
    apply elem_of_lookup_imap. by exists u, x.
Qed.

Lemma is_Some_diagonal a capacity penalty n Q u v :
  is_Some (diagonal_terms a capacity penalty n Q !! (u, v))
  <-> is_Some (Q !! (u, v)) \/ (u = v /\ (u < n)%nat).
Proof.
  unfold diagonal_terms.
  rewrite (is_Some_foldl (u, v) _ (fun w => (u, v) = canonical w w)).
  2:{ intros Q' w. apply is_Some_add_Q. }
  apply or_iff_compat_l. rewrite list.Exists_exists. split.
  - intros (w & Hin & Hk). apply elem_of_range in Hin.
    rewrite canonical_diag in Hk. injection Hk as -> ->. lia.
  - intros [<- Hlt]. exists u. rewrite elem_of_range, canonical_diag.
    split; [lia | done].
Qed.

Lemma is_Some_offdiagonal a penalty n Q u v :
  is_Some (offdiagonal_terms a penalty n Q !! (u, v))
  <-> is_Some (Q !! (u, v)) \/ (u < v < n)%nat.
Proof.
  unfold offdiagonal_terms.
  rewrite (is_Some_foldl (u, v) _
             (fun u' => Exists (fun v' => (u, v) = canonical u' v') (range (u' + 1) n))).
  2:{ intros Q' u'. apply is_Some_foldl. intros Q'' v'. apply is_Some_add_Q. }
  apply or_iff_compat_l. rewrite list.Exists_exists. split.
  - intros (u' & Hu' & Hex). apply list.Exists_exists in Hex as (v' & Hv' & Hk).
    apply elem_of_range in Hu', Hv'.
    rewrite canonical_le in Hk by lia. injection Hk as -> ->. lia.
  - intros Hlt. exists u. rewrite elem_of_range. split; [lia|].
    apply list.Exists_exists. exists v. rewrite elem_of_range, canonical_le by lia.
    split; [lia | done].
Qed.

Lemma is_Some_build weights values capacity penalty Q u v :
  build_knapsack_qubo weights values capacity penalty = inr Q ->
  is_Some (Q !! (u, v)) <-> (u <= v < length weights + m_slack capacity)%nat.
Proof.
  unfold build_knapsack_qubo.
  destruct (Nat.eqb_spec (length weights) (length values)) as [Hlen|]; [|done].
  simpl. destruct (capacity <=? 0)%Z; [done|].
  intros [= <-].
  rewrite is_Some_offdiagonal, is_Some_diagonal, is_Some_objective, lookup_empty.
  rewrite <- Hlen. split.
  - intros [[[H|H]|H]|H]; [by destruct H | lia..].
  - intros H. destruct (decide (u = v)); [left; right | right]; lia.
Qed.

(** *** The entries of the QUBO *)



(** *** The number of slack bits *)


(** *** Claims about [build_knapsack_qubo] and [add_Q] *)

Lemma build_valid weights values capacity penalty :
  length weights = length values -> (0 < capacity)%Z ->
  build_knapsack_qubo weights values capacity penalty
  = inr (offdiagonal_terms
           (coefficients weights (length weights) (m_slack capacity)) penalty
           (length weights + m_slack capacity)
           (diagonal_terms
              (coefficients weights (length weights) (m_slack capacity))
              capacity penalty (length weights + m_slack capacity)
              (objective_terms values ∅))).
Proof.
  intros Hlen Hcap. unfold build_knapsack_qubo.
  rewrite Hlen, Nat.eqb_refl. simpl.
  destruct (Z.leb_spec capacity 0) as [Hle|_]; [lia | done].
Qed.





(** C3.  For valid inputs the returned mapping has the key [(i, j)] exactly
    when [i <= j] and both are variables, so every key is canonical and each
    unordered pair has one entry; and [add_Q] called with [(j, i)], [j > i],
    accumulates into the entry [(i, j)], like the call with [(i, j)]. *)
Theorem build_knapsack_qubo_canonical weights values capacity penalty :
  length weights = length values ->
  (0 < capacity)%Z ->
  (exists Q,
      build_knapsack_qubo weights values capacity penalty = inr Q /\
      (forall i j, is_Some (Q !! (i, j)) -> (i <= j)%nat) /\
      (forall i j, (i <= j < length weights + m_slack capacity)%nat ->
                   is_Some (Q !! (i, j)) /\ (i <> j -> Q !! (j, i) = None))) /\
  (forall (Q : gmap (nat * nat) Qc) i j value,
      (i < j)%nat ->
      add_Q Q j i value = <[(i, j) := coefficient Q (i, j) + value]> Q /\
      add_Q Q j i value = add_Q Q i j value).
Proof.
  intros Hlen Hcap. split.
  - eexists. split; [by apply build_valid|].
    pose proof (fun u v => is_Some_build _ _ _ _ _ u v
                             (build_valid weights values capacity penalty Hlen Hcap))
      as Hdom.
    split.
    + intros i j H. apply Hdom in H. lia.
    + intros i j H. split; [by apply Hdom|].
      intros Hne. apply eq_None_not_Some. rewrite Hdom. lia.
  - intros Q i j value Hij.
    rewrite !add_Q_insert, canonical_sym, canonical_le by lia. done.
Qed.

Lemma build_knapsack_qubo_canonical_witness :
  (exists Q,
      build_knapsack_qubo [2; 3; 4]%Z [Qc_of_Z 3; Qc_of_Z 4; Qc_of_Z 5] 5 1 = inr Q /\
      (forall i j, is_Some (Q !! (i, j)) -> (i <= j)%nat) /\
      (forall i j, (i <= j < 3 + m_slack 5)%nat ->
                   is_Some (Q !! (i, j)) /\ (i <> j -> Q !! (j, i) = None))) /\
  (forall (Q : gmap (nat * nat) Qc) i j value,
      (i < j)%nat ->
      add_Q Q j i value = <[(i, j) := coefficient Q (i, j) + value]> Q /\
      add_Q Q j i value = add_Q Q i j value).
Proof.
  apply (build_knapsack_qubo_canonical [2; 3; 4]%Z [Qc_of_Z 3; Qc_of_Z 4; Qc_of_Z 5] 5 1);
    [reflexivity | lia].
Defined.

(** C4.  [build_knapsack_qubo] returns the length error exactly when the
    lengths differ, the capacity error exactly when the lengths agree and
    [capacity <= 0], and a mapping exactly when the lengths agree and
    [capacity > 0].  An error result carries no mapping: both checks come
    before the dictionary is created. *)
Theorem build_knapsack_qubo_errors weights values capacity penalty :
  (build_knapsack_qubo weights values capacity penalty = inl LengthMismatch
   <-> length weights <> length values) /\
  (build_knapsack_qubo weights values capacity penalty = inl CapacityNotPositive
   <-> length weights = length values /\ (capacity <= 0)%Z) /\
  ((exists Q, build_knapsack_qubo weights values capacity penalty = inr Q)
   <-> length weights = length values /\ (0 < capacity)%Z).
Proof.
  unfold build_knapsack_qubo.
  destruct (Nat.eqb_spec (length weights) (length values)) as [Hlen|Hlen]; simpl.
  - destruct (Z.leb_spec capacity 0) as [Hc|Hc].
    + split; [split; [done | tauto]|]. split; [tauto|].
      split; [by intros [Q ?] | lia].
    + split; [split; [done | tauto]|]. split; [split; [done | lia]|].
      split; [tauto | intros _; by eexists].
  - split; [tauto|]. split; [split; [done | tauto]|].
    split; [by intros [Q ?] | tauto].
Qed.

(** C9.  Accumulation is commutative and associative: the calls of [add_Q]
    that target one unordered pair add up, so the final coefficient of the
    pair is its initial coefficient (0 when absent) plus the sum of the
    values, and performing the calls in any other order gives the same
    dictionary. *)
Theorem add_Q_accumulation (Q : gmap (nat * nat) Qc) calls calls' k :
  calls ≡ₚ calls' ->
  Forall (fun c => canonical c.1.1 c.1.2 = k) calls ->
  coefficient (add_all Q calls) k = coefficient Q k + sumQ (map snd calls) /\
  add_all Q calls' = add_all Q calls.
Proof.
  intros Hperm Hall. split; [by apply coefficient_add_all|].
  symmetry. by apply add_all_permutation.
Qed.

Lemma add_Q_accumulation_witness :
  coefficient (add_all ∅ [(0, 1, Qc_of_Z 2); (1, 0, Qc_of_Z 3); (0, 1, Qc_of_Z 5)]%nat)
              (0, 1)%nat
  = coefficient ∅ (0, 1)%nat
    + sumQ (map snd [(0, 1, Qc_of_Z 2); (1, 0, Qc_of_Z 3); (0, 1, Qc_of_Z 5)]%nat) /\
  add_all ∅ [(1, 0, Qc_of_Z 3); (0, 1, Qc_of_Z 2); (0, 1, Qc_of_Z 5)]%nat
  = add_all ∅ [(0, 1, Qc_of_Z 2); (1, 0, Qc_of_Z 3); (0, 1, Qc_of_Z 5)]%nat.
Proof.
  apply (add_Q_accumulation ∅
           [(0, 1, Qc_of_Z 2); (1, 0, Qc_of_Z 3); (0, 1, Qc_of_Z 5)]%nat
           [(1, 0, Qc_of_Z 3); (0, 1, Qc_of_Z 2); (0, 1, Qc_of_Z 5)]%nat
           (0, 1)%nat).
  - apply perm_swap.
  - repeat constructor.
Defined.

(** ** Decoders *)

Import Decoders.

Lemma selected_missing (sample : gmap nat Z) u :
  sample !! u = None -> selected sample u = false.
Proof. intros H. unfold selected. by rewrite H. Qed.

Lemma selected_with_zeros (sample : gmap nat Z) (K : gset nat) u :
  K ## dom sample -> selected (with_zeros sample K) u = selected sample u.
Proof.
  intros Hdisj. unfold selected, with_zeros.
  destruct (decide (u ∈ K)) as [Hin|Hnin].
  - assert (sample !! u = None) as Hnone.
    { apply not_elem_of_dom. set_solver. }
    rewrite Hnone.
    erewrite lookup_union_Some_l; [done|].
    by apply lookup_gset_to_gmap_Some.
  - rewrite lookup_union_r; [done|]. by apply lookup_gset_to_gmap_None.
Qed.

Lemma foldl_ext_all {A B} (f g : A -> B -> A) (l : list B) :
  (forall a b, f a b = g a b) -> forall a, foldl f a l = foldl g a l.
Proof.
  intros Hfg. induction l as [|b l IH]; intros a; simpl; [done|].
  by rewrite Hfg, IH.
Qed.

(** Reading the list at the positions of [range] that satisfy [p] never
    fails and yields the picked elements. *)
Lemma mapM_lookup_picked {A} (p : nat -> bool) (xs : list A) : forall pre,
  mapM (fun i => (pre ++ xs) !! i)
       (List.filter p (seq (length pre) (length xs)))
  = Some (picked p (length pre) xs).
Proof.
  induction xs as [|x xs IH]; intros pre; simpl; [done|].
  specialize (IH (pre ++ [x])).
  rewrite length_app, Nat.add_1_r, <- app_assoc in IH. simpl in IH.
  destruct (p (length pre)); simpl.
  - rewrite list_lookup_middle by done. simpl. by rewrite IH.
  - exact IH.
Qed.

Lemma sumZ_picked (p : nat -> bool) (ws : list Z) : forall s,
  sumZ (picked p s ws)
  = sumZ (imap (fun i w => if p (s + i)%nat then w else 0%Z) ws).
Proof.
  induction ws as [|w ws IH]; intros s; simpl; [done|].
  rewrite Nat.add_0_r.
  rewrite (imap_ext _ (fun i w => if p (S s + i)%nat then w else 0%Z)).
  2:{ intros i x _. simpl. by replace (s + S i)%nat with (S (s + i)) by lia. }
  rewrite <- IH. destruct (p s); simpl; lia.
Qed.

Lemma check_knapsack_constraints_eq sample weights capacity :
  check_knapsack_constraints sample weights capacity
  = Some ((selected_weight sample weights <=? capacity)%Z,
          selected_weight sample weights).
Proof.
  unfold check_knapsack_constraints, range. rewrite Nat.sub_0_r.
  pose proof (mapM_lookup_picked (fun i => selected sample i) weights []) as H.
  simpl in H. rewrite H. simpl.
  pose proof (sumZ_picked (fun i => selected sample i) weights 0) as Hs.
  simpl in Hs. unfold selected_weight. by rewrite Hs.
Qed.

Lemma selected_weight_agree sample sample' weights :
  (forall i, (i < length weights)%nat -> sample' !! i = sample !! i) ->
  selected_weight sample' weights = selected_weight sample weights.
Proof.
  intros Hagree. unfold selected_weight. f_equal.
  apply imap_ext. intros i w Hi. apply lookup_lt_Some in Hi.
  unfold selected. by rewrite Hagree.
Qed.

Lemma decode_knapsack_solution_ext sample sample' weights values :
  (forall u, selected sample' u = selected sample u) ->
  decode_knapsack_solution sample' weights values
  = decode_knapsack_solution sample weights values.
Proof.
  intros Hsel. unfold decode_knapsack_solution.
  by rewrite (List.filter_ext _ (fun i => selected sample i) Hsel).
Qed.

Lemma decode_assignment_solution_ext sample sample' costs :
  (forall u, selected sample' u = selected sample u) ->
  decode_assignment_solution sample' costs
  = decode_assignment_solution sample costs.
Proof.
  intros Hsel. unfold decode_assignment_solution.
  destruct (costs !! 0%nat) as [row0|]; simpl; [|done].
  rewrite (foldl_ext_all _
             (fun acc i =>
                foldl (fun acc j =>
                         if selected sample (i * length row0 + j)
                         then acc ++ [(i, j)] else acc)
                      acc (range 0 (length row0)))); [done|].
  intros acc i. apply foldl_ext_all. intros acc' j. by rewrite Hsel.
Qed.

Lemma foldl_invariant {A B} (P : A -> Prop) (f : A -> B -> A) (l : list B) :
  (forall a b, b ∈ l -> P a -> P (f a b)) -> forall a, P a -> P (foldl f a l).
Proof.
  induction l as [|b l IH]; intros Hf a Ha; simpl; [done|].
  apply IH.
  - intros a' b' Hb'. apply Hf. by right.
  - apply Hf; [left | done].
Qed.

Lemma decode_knapsack_solution_total sample weights values :
  length weights = length values ->
  is_Some (decode_knapsack_solution sample weights values).
Proof.
  intros Hlen. unfold decode_knapsack_solution, range. rewrite Nat.sub_0_r.
  pose proof (mapM_lookup_picked (fun i => selected sample i) weights []) as Hw.
  simpl in Hw. rewrite Hw. simpl.
  pose proof (mapM_lookup_picked (fun i => selected sample i) values []) as Hv.
  simpl in Hv. rewrite Hlen, Hv. simpl. by eexists.
Qed.

Lemma decode_assignment_solution_total sample costs :
  costs <> [] ->
  (forall row, row ∈ costs -> length row = length (default [] (costs !! 0%nat))) ->
  is_Some (decode_assignment_solution sample costs).
Proof.
  intros Hne Hrect. unfold decode_assignment_solution.
  destruct (costs !! 0%nat) as [row0|] eqn:H0; [|by destruct costs].
  simpl in *.
  set (assignments := foldl _ _ _).
  assert (Hin : Forall (fun p => (p.1 < length costs)%nat /\ (p.2 < length row0)%nat)
                       assignments).
  { subst assignments.
    apply (foldl_invariant (Forall _)); [|constructor].
    intros acc i Hi Hacc. apply elem_of_range in Hi.
    apply (foldl_invariant (Forall _)); [|done].
    intros acc' j Hj Hacc'. apply elem_of_range in Hj.
    destruct (selected _ _); [|done].
    apply Forall_app. split; [done|]. constructor; [simpl; lia | constructor]. }
  assert (Hm : is_Some (mapM (fun '(i, j) => row ← costs !! i; row !! j) assignments)).
  { apply mapM_is_Some. eapply list.Forall_impl; [exact Hin|].
    intros [i j] [Hi Hj]. simpl in *.
    destruct (lookup_lt_is_Some_2 costs i Hi) as [row Hrow].
    rewrite Hrow. simpl. apply lookup_lt_is_Some_2.
    rewrite (Hrect row); [done|]. by eapply list_elem_of_lookup_2. }
  destruct Hm as [cs Hcs]. rewrite Hcs. simpl. by eexists.
Qed.

(** C5.  Extending a sample with explicit 0 entries for keys it lacks
    changes the result of neither decoder; a missing key reads as an
    unselected bit, and on well-formed domain data (as many values as
    weights; a non-empty rectangular cost matrix) the decoders return a
    result whatever keys the sample has. *)
Theorem decoders_missing_keys sample (K : gset nat) weights values costs :
  K ## dom sample ->
  decode_knapsack_solution (with_zeros sample K) weights values
  = decode_knapsack_solution sample weights values /\
  decode_assignment_solution (with_zeros sample K) costs
  = decode_assignment_solution sample costs /\
  (forall u, sample !! u = None -> selected sample u = false) /\
  (length weights = length values ->
   is_Some (decode_knapsack_solution sample weights values)) /\
  (costs <> [] ->
   (forall row, row ∈ costs -> length row = length (default [] (costs !! 0%nat))) ->
   is_Some (decode_assignment_solution sample costs)).
Proof.
  intros Hdisj. split; [|split; [|split; [|split]]].
  - apply decode_knapsack_solution_ext. intros u. by apply selected_with_zeros.
  - apply decode_assignment_solution_ext. intros u. by apply selected_with_zeros.
  - apply selected_missing.
  - apply decode_knapsack_solution_total.
  - apply decode_assignment_solution_total.
Qed.

(** C6.  [check_knapsack_constraints] returns [(feasible, total_weight)]
    where [total_weight] is the sum of [weights[i]] over the items [i] with
    [sample[i] = 1] and [feasible] holds exactly when
    [total_weight <= capacity]; the result depends on the sample only
    through the keys below [len(weights)]; for weights [2, 3, 4], capacity 5
    and a sample selecting exactly items 0 and 1 it is [(true, 5)]. *)
Theorem check_knapsack_constraints_spec sample weights capacity :
  (exists feasible total_weight,
      check_knapsack_constraints sample weights capacity
      = Some (feasible, total_weight) /\
      total_weight = selected_weight sample weights /\
      (feasible = true <-> (total_weight <= capacity)%Z)) /\
  (forall sample',
      (forall i, (i < length weights)%nat -> sample' !! i = sample !! i) ->
      check_knapsack_constraints sample' weights capacity
      = check_knapsack_constraints sample weights capacity) /\
  (selected sample 0 = true -> selected sample 1 = true ->
   selected sample 2 = false ->
   check_knapsack_constraints sample [2; 3; 4]%Z 5 = Some (true, 5%Z)).
Proof.
  split; [|split].
  - eexists _, _. split; [apply check_knapsack_constraints_eq|].
    split; [done | apply Z.leb_le].
  - intros sample' Hagree. rewrite !check_knapsack_constraints_eq.
    by rewrite (selected_weight_agree sample sample' weights Hagree).
  - intros H0 H1 H2. rewrite check_knapsack_constraints_eq.
    unfold selected_weight. simpl. by rewrite H0, H1, H2.
Qed.

Lemma decoders_missing_keys_witness :
  let sample : gmap nat Z := {[ 0%nat := 1%Z; 1%nat := 1%Z ]} in
  let K : gset nat := {[ 3%nat; 4%nat; 5%nat ]} in
  let weights := [2; 3; 4]%Z in
  let values := [Qc_of_Z 3; Qc_of_Z 4; Qc_of_Z 5] in
  let costs := [[Qc_of_Z 4; Qc_of_Z 1]; [Qc_of_Z 2; Qc_of_Z 3]] in
  K ## dom sample /\
  decode_knapsack_solution (with_zeros sample K) weights values
  = decode_knapsack_solution sample weights values /\
  decode_assignment_solution (with_zeros sample K) costs
  = decode_assignment_solution sample costs /\
  (forall u, sample !! u = None -> selected sample u = false) /\
  (length weights = length values ->
   is_Some (decode_knapsack_solution sample weights values)) /\
  (costs <> [] ->
   (forall row, row ∈ costs -> length row = length (default [] (costs !! 0%nat))) ->
   is_Some (decode_assignment_solution sample costs)).
Proof.
  intros sample K weights values costs.
  assert (Hdisj : K ## dom sample)
    by (apply (bool_decide_unpack (K ## dom sample)); vm_compute; exact I).
  split; [exact Hdisj|].
  exact (decoders_missing_keys sample K weights values costs Hdisj).
Defined.

Lemma check_knapsack_constraints_spec_witness :
  let sample : gmap nat Z := {[ 0%nat := 1%Z; 1%nat := 1%Z; 4%nat := 1%Z ]} in
  check_knapsack_constraints sample [2; 3; 4]%Z 5 = Some (true, 5%Z).
Proof.
  intros sample.
  apply (check_knapsack_constraints_spec sample [2; 3; 4]%Z 5); reflexivity.
Defined.

(** ** Energy histogram *)

Import Main.


Lemma sumZ_permutation l1 l2 : l1 ≡ₚ l2 -> sumZ l1 = sumZ l2.
Proof. induction 1; simpl; lia. Qed.

Lemma zip_rows {A B C} (f : A -> B) (g : A -> C) (l : list A) :
  zip (map f l) (map g l) = map (fun r => (f r, g r)) l.
Proof. induction l as [|r l IH]; simpl; [done | by rewrite IH]. Qed.

Lemma increment_keys d e c e' :
  e' ∈ map fst (increment d e c) <-> e' = e \/ e' ∈ map fst d.
Proof.
  induction d as [|[k n] d IH]; simpl.
  - rewrite list_elem_of_singleton, elem_of_nil. tauto.
  - case_decide as Hk; simpl.
    + subst k. rewrite !elem_of_cons. tauto.
    + rewrite !elem_of_cons, IH. tauto.
Qed.

Lemma increment_NoDup d e c :
  NoDup (map fst d) -> NoDup (map fst (increment d e c)).
Proof.
  induction d as [|[k n] d IH]; simpl; intros Hnd.
  - apply list.NoDup_singleton.
  - apply list.NoDup_cons in Hnd as [Hk Hnd].
    case_decide as Hke; simpl.
    + by apply list.NoDup_cons.
    + apply list.NoDup_cons. split; [|by apply IH].
      rewrite increment_keys. intros [->|H]; [done | by apply Hk].
Qed.

Lemma stored_count_increment d e c e' :
  stored_count (increment d e c) e'
  = (stored_count d e' + (if decide (e' = e) then c else 0))%Z.
Proof.
  unfold stored_count.
  induction d as [|[k n] d IH]; simpl.
  - destruct (decide (e' = e)) as [->|Hne].
    + rewrite bool_decide_true by done. simpl. lia.
    + rewrite bool_decide_false by done. simpl. lia.
  - destruct (decide (k = e)) as [->|Hke]; simpl.
    + destruct (decide (e' = e)) as [->|Hne].
      * rewrite !bool_decide_true by done. simpl. lia.
      * rewrite !bool_decide_false by done. lia.
    + destruct (bool_decide (k = e')); simpl; rewrite IH; lia.
Qed.

Lemma sumZ_increment d e c :
  sumZ (map snd (increment d e c)) = (sumZ (map snd d) + c)%Z.
Proof.
  induction d as [|[k n] d IH]; simpl; [lia|].
  case_decide; simpl; [lia | rewrite IH; lia].
Qed.

Lemma stored_count_NoDup d e c :
  NoDup (map fst d) -> (e, c) ∈ d -> stored_count d e = c.
Proof.
  unfold stored_count.
  induction d as [|[k n] d IH]; simpl; intros Hnd Hin.
  - by apply elem_of_nil in Hin.
  - apply list.NoDup_cons in Hnd as [Hk Hnd].
    apply elem_of_cons in Hin as [[= <- <-]|Hin].
    + rewrite bool_decide_true by done. simpl.
      assert (List.filter (fun p : Qc * Z => bool_decide (p.1 = e)) d = []) as ->.
      { clear -Hk. induction d as [|[k' n'] d IH]; simpl; [done|].
        rewrite bool_decide_false.
        - apply IH. intros H. apply Hk. simpl. by right.
        - simpl. intros ->. apply Hk. simpl. by left. }
      simpl. lia.
    + rewrite bool_decide_false.
      * by apply IH.
      * simpl. intros ->. apply Hk.
        apply (list_elem_of_fmap_2 fst) in Hin. exact Hin.
Qed.

(** The state of the dictionary after the loop over the records. *)
Lemma energy_counts_spec (rows : list (Qc * Z)) : forall d,
  NoDup (map fst d) ->
  let d' := foldl (fun d '(e, c) => increment d e c) d rows in
  NoDup (map fst d') /\
  (forall e, e ∈ map fst d' <-> e ∈ map fst d \/ e ∈ map fst rows) /\
  (forall e, stored_count d' e
             = (stored_count d e
                + sumZ (map snd (List.filter (fun p => bool_decide (p.1 = e)) rows)))%Z) /\
  sumZ (map snd d') = (sumZ (map snd d) + sumZ (map snd rows))%Z.
Proof.
  induction rows as [|[e c] rows IH]; intros d Hnd; simpl.
  - split; [done|]. split; [intros e; rewrite elem_of_nil; tauto|].
    split; [intros e|]; lia.
  - destruct (IH (increment d e c) (increment_NoDup d e c Hnd))
      as (Hnd' & Hkeys & Hcount & Hsum).
    split; [done|]. split; [|split].
    + intros e'. rewrite Hkeys, increment_keys, elem_of_cons. tauto.
    + intros e'. rewrite Hcount, stored_count_increment.
      destruct (decide (e' = e)) as [->|Hne].
      * rewrite bool_decide_true by done. simpl. lia.
      * rewrite bool_decide_false by done. lia.
    + rewrite Hsum, sumZ_increment. lia.
Qed.

Lemma insert_by_permutation {A} (key : A -> Qc) x xs :
  insert_by key x xs ≡ₚ x :: xs.
Proof.
  induction xs as [|y ys IH]; simpl; [done|].
  case_decide; [done|]. rewrite IH. apply perm_swap.
Qed.

Lemma sorted_permutation {A} (key : A -> Qc) xs : sorted key xs ≡ₚ xs.
Proof.
  unfold sorted. induction xs as [|x xs IH]; simpl; [done|].
  by rewrite insert_by_permutation, IH.
Qed.

Lemma insert_by_sorted {A} (key : A -> Qc) x xs :
  StronglySorted (fun a b => key a ≤ key b) xs ->
  StronglySorted (fun a b => key a ≤ key b) (insert_by key x xs).
Proof.
  induction xs as [|y ys IH]; simpl; intros Hs.
  - repeat constructor.
  - apply StronglySorted_inv in Hs as [Hys Hy].
    case_decide as Hxy.
    + constructor; [by constructor|].
      constructor; [done|].
      eapply list.Forall_impl; [exact Hy|]. intros b Hb. simpl in *.
      by etrans.
    + constructor; [by apply IH|].
      rewrite insert_by_permutation. constructor; [|done].
      apply Qclt_le_weak. by apply Qcnot_le_lt.
Qed.

Lemma sorted_sorted {A} (key : A -> Qc) xs :
  StronglySorted (fun a b => key a ≤ key b) (sorted key xs).
Proof.
  unfold sorted. induction xs as [|x xs IH]; simpl; [constructor|].
  by apply insert_by_sorted.
Qed.

(** An ascending list without repeated keys is strictly ascending. *)
Lemma sorted_strict {A} (key : A -> Qc) xs :
  StronglySorted (fun a b => key a ≤ key b) xs ->
  NoDup (map key xs) ->
  StronglySorted (fun a b => key a < key b) xs.
Proof.
  induction xs as [|x xs IH]; simpl; intros Hs Hnd; [constructor|].
  apply StronglySorted_inv in Hs as [Hxs Hx].
  apply list.NoDup_cons in Hnd as [Hnin Hnd].
  constructor; [by apply IH|].
  apply list.Forall_forall. intros b Hb.
  rewrite list.Forall_forall in Hx.
  destruct (Qcle_lt_or_eq _ _ (Hx b Hb)) as [Hlt|Heq]; [done|].
  exfalso. apply Hnin. rewrite Heq. by apply list_elem_of_fmap_2.
Qed.

Lemma occurrences_of_rows e record :
  sumZ (map snd (List.filter (fun p : Qc * Z => bool_decide (p.1 = e))
                             (map (fun r => (rec_energy r, rec_num_occurrences r))
                                  record)))
  = occurrences_of e record.
Proof.
  unfold occurrences_of.
  induction record as [|r record IH]; simpl; [done|].
  destruct (bool_decide (rec_energy r = e)); simpl; by rewrite IH.
Qed.

(** The bins are, up to order, the entries of the dictionary. *)
Lemma build_energy_histogram_permutation record :
  build_energy_histogram record
  ≡ₚ map (fun '(e, c) => {| energy := e; count := c |})
         (foldl (fun d '(e, c) => increment d e c) []
                (map (fun r => (rec_energy r, rec_num_occurrences r)) record)).
Proof.
  unfold build_energy_histogram.
  by rewrite !sorted_permutation, zip_rows.
Qed.

Lemma bin_fields (d : list (Qc * Z)) :
  map energy (map (fun '(e, c) => {| energy := e; count := c |}) d) = map fst d /\
  map count (map (fun '(e, c) => {| energy := e; count := c |}) d) = map snd d.
Proof.
  induction d as [|[e c] d [IH1 IH2]]; simpl; [done|]. by rewrite IH1, IH2.
Qed.

Lemma elem_of_bins (d : list (Qc * Z)) b :
  b ∈ map (fun '(e, c) => {| energy := e; count := c |}) d
  <-> (energy b, count b) ∈ d.
Proof.
  rewrite list_elem_of_fmap. split.
  - intros ([e c] & -> & Hin). done.
  - intros Hin. exists (energy b, count b). split; [by destruct b | done].
Qed.


(** C10.  The counts of the bins add up to the occurrence counts of the
    records: the merge neither drops nor duplicates occurrences. *)
Theorem build_energy_histogram_conserves_counts record :
  sumZ (map count (build_energy_histogram record))
  = sumZ (map rec_num_occurrences record).
Proof.
  set (rows := map (fun r => (rec_energy r, rec_num_occurrences r)) record).
  destruct (energy_counts_spec rows [] (NoDup_nil_2 (A := Qc))) as (_ & _ & _ & Hsum).
  etrans.
  { apply sumZ_permutation, (fmap_Permutation count),
      build_energy_histogram_permutation. }
  fold rows.
  etrans; [exact (f_equal sumZ (proj2 (bin_fields _)))|].
  rewrite Hsum. unfold rows. rewrite map_map. done.
Qed.

(** ** Solver configuration *)

Import Solver.

(** C8.  In the merged configuration every key supplied by the caller has
    the caller's value, every other key has the value of the solver's
    defaults (absent when the defaults lack it too), without a caller
    configuration the result is the defaults, and the defaults of a fresh
    solver are [{"num_reads": 10}]. *)
Theorem merge_config_overrides (self : SolverBase)
        (sample_config : gmap string Any) (key : string) :
  (forall value, sample_config !! key = Some value ->
                 _merge_config self (Some sample_config) !! key = Some value) /\
  (sample_config !! key = None ->
   _merge_config self (Some sample_config) !! key
   = self.(Solver.sample_config) !! key) /\
  _merge_config self None = self.(Solver.sample_config) /\
  _merge_config SolverBase_init None = {[ "num_reads" := PyInt 10 ]}.
Proof.
  unfold _merge_config. split; [|split; [|split]].
  - intros value Hk. by apply lookup_union_Some_l.
  - intros Hk. by apply lookup_union_r.
  - done.
  - done.
Qed.

Lemma merge_config_overrides_witness :
  _merge_config SolverBase_init (Some {[ "num_reads" := PyInt 100 ]}) !! "num_reads"
  = Some (PyInt 100) /\
  _merge_config SolverBase_init (Some {[ "sweeps" := PyInt 7 ]}) !! "num_reads"
  = Some (PyInt 10).
Proof.
  split.
  - apply (merge_config_overrides SolverBase_init {[ "num_reads" := PyInt 100 ]}
                                  "num_reads"). reflexivity.
  - etrans.
    + apply (merge_config_overrides SolverBase_init {[ "sweeps" := PyInt 7 ]}
                                    "num_reads"). reflexivity.
    + reflexivity.
Defined.

Lemma build_knapsack_qubo_errors_witness :
  build_knapsack_qubo [2; 3; 4]%Z [Qc_of_Z 3; Qc_of_Z 4] 5 1 = inl LengthMismatch /\
  build_knapsack_qubo [2; 3; 4]%Z [Qc_of_Z 3; Qc_of_Z 4; Qc_of_Z 5] 0 1
  = inl CapacityNotPositive /\
  exists Q,
    build_knapsack_qubo [2; 3; 4]%Z [Qc_of_Z 3; Qc_of_Z 4; Qc_of_Z 5] 5 1 = inr Q.
Proof.
  split; [|split].
  - apply (build_knapsack_qubo_errors [2; 3; 4]%Z [Qc_of_Z 3; Qc_of_Z 4] 5 1).
    simpl. lia.
  - apply (build_knapsack_qubo_errors [2; 3; 4]%Z [Qc_of_Z 3; Qc_of_Z 4; Qc_of_Z 5] 0 1).
    split; [reflexivity | lia].
  - apply (build_knapsack_qubo_errors [2; 3; 4]%Z [Qc_of_Z 3; Qc_of_Z 4; Qc_of_Z 5] 5 1).
    split; [reflexivity | lia].
Defined.

(** ** The examples of the specification, evaluated

    Rational results are shown through their reduced fraction [this]. *)

(** weights [2, 3, 4], values [3, 4, 5], capacity 5, penalty 5: three slack
    bits, [Q[(0, 0)] = -3 + 5 (4 - 20)], [Q[(0, 1)] = 2 * 5 * 2 * 3], the
    first slack bit [Q[(3, 3)] = 5 (1 - 10)], and no entry below the
    diagonal or beyond the last variable. *)
Example build_knapsack_qubo_example :
  match build_knapsack_qubo [2; 3; 4]%Z [Qc_of_Z 3; Qc_of_Z 4; Qc_of_Z 5] 5
                            (Qc_of_Z 5) with
  | inr Q =>
      this <$> Q !! (0, 0)%nat = Some (-83)%Q /\
      this <$> Q !! (0, 1)%nat = Some 60%Q /\
      this <$> Q !! (3, 3)%nat = Some (-45)%Q /\
      this <$> Q !! (2, 5)%nat = Some 160%Q /\
      Q !! (1, 0)%nat = None /\ Q !! (5, 6)%nat = None /\ size Q = 21%nat
  | inl _ => False
  end.
Proof. vm_compute. repeat split; reflexivity. Qed.

(** The best feasible selection of the knapsack example, items 0 and 1, with
    the slack keys absent from the sample. *)
Example decode_knapsack_solution_example :
  (fun '(chosen, w, v) => (chosen, w, this v))
    <$> decode_knapsack_solution {[ 0%nat := 1%Z; 1%nat := 1%Z ]}
                                 [2; 3; 4]%Z [Qc_of_Z 3; Qc_of_Z 4; Qc_of_Z 5]
  = Some ([0; 1]%nat, 5%Z, 7%Q).
Proof. vm_compute. reflexivity. Qed.

(** costs [[4, 1], [2, 3]] with worker 0 on job 1 and worker 1 on job 0. *)
Example decode_assignment_solution_example :
  (fun '(pairs, cost) => (pairs, this cost))
    <$> decode_assignment_solution
          {[ 0%nat := 0%Z; 1%nat := 1%Z; 2%nat := 1%Z; 3%nat := 0%Z ]}
          [[Qc_of_Z 4; Qc_of_Z 1]; [Qc_of_Z 2; Qc_of_Z 3]]
  = Some ([(0, 1); (1, 0)]%nat, 3%Q).
Proof. vm_compute. reflexivity. Qed.

(** A ragged cost matrix makes the decoder fail with the [IndexError]. *)
Example decode_assignment_solution_ragged :
  decode_assignment_solution {[ 3%nat := 1%Z ]}
                             [[Qc_of_Z 4; Qc_of_Z 1]; [Qc_of_Z 2]]
  = None.
Proof. vm_compute. reflexivity. Qed.

(** Four records, two of them with energy 1. *)
Example build_energy_histogram_example :
  map (fun b => (this (energy b), count b))
      (build_energy_histogram
         [ {| rec_energy := Qc_of_Z 1; rec_num_occurrences := 2 |};
           {| rec_energy := Qc_of_Z (-3); rec_num_occurrences := 1 |};
           {| rec_energy := Qc_of_Z 1; rec_num_occurrences := 3 |};
           {| rec_energy := Q2Qc (1 # 2); rec_num_occurrences := 1 |} ])
  = [((-3)%Q, 1%Z); (1 # 2, 1%Z); (1%Q, 5%Z)].
Proof. vm_compute. reflexivity. Qed.
(** * Further properties of the code *)

(** ** [add_Q] and the key set of the knapsack QUBO *)

Lemma coefficient_add_all_mixed calls : forall (Q : gmap (nat * nat) Qc) k,
  coefficient (add_all Q calls) k
  = coefficient Q k
    + sumQ (map snd (List.filter
                       (fun c : nat * nat * Qc =>
                          bool_decide (canonical c.1.1 c.1.2 = k)) calls)).
Proof.
  unfold add_all.
  induction calls as [|[[i j] v] calls IH]; intros Q k; simpl; [ring|].
  rewrite IH, coefficient_add_Q.
  destruct (decide (k = canonical i j)) as [->|Hne].
  - rewrite bool_decide_true by done. simpl. ring.
  - rewrite bool_decide_false by done. done.
Qed.

Lemma is_Some_add_all calls : forall (Q : gmap (nat * nat) Qc) k,
  is_Some (add_all Q calls !! k)
  <-> is_Some (Q !! k) \/ exists c, c ∈ calls /\ canonical c.1.1 c.1.2 = k.
Proof.
  unfold add_all.
  induction calls as [|[[i j] v] calls IH]; intros Q k; simpl.
  - split; [by left | intros [H|(c & Hc & _)]; [done | by apply elem_of_nil in Hc]].
  - rewrite IH, is_Some_add_Q. split.
    + intros [[H|Hk]|(c & Hc & Hk)].
      * by left.
      * right. exists (i, j, v). split; [left | done].
      * right. exists c. split; [by right | done].
    + intros [H|(c & Hc & Hk)]; [by left; left|].
      apply elem_of_cons in Hc as [->|Hc].
      * left. right. by rewrite <- Hk.
      * right. by exists c.
Qed.

(** X1.  After any sequence of [add_Q] calls on any mapping, the coefficient
    under a key is the one before plus the sum of the values of the calls
    whose canonical key [(min i j, max i j)] it is; a key is present exactly
    when it was present before or some call addressed it; and a mapping whose
    keys all satisfy [i <= j] keeps that property. *)
Theorem add_Q_accounting (Q : gmap (nat * nat) Qc) calls k :
  coefficient (add_all Q calls) k
  = coefficient Q k
    + sumQ (map snd (List.filter
                       (fun c : nat * nat * Qc =>
                          bool_decide (canonical c.1.1 c.1.2 = k)) calls)) /\
  (is_Some (add_all Q calls !! k)
   <-> is_Some (Q !! k) \/ exists c, c ∈ calls /\ canonical c.1.1 c.1.2 = k) /\
  ((forall k', is_Some (Q !! k') -> (k'.1 <= k'.2)%nat) ->
   is_Some (add_all Q calls !! k) -> (k.1 <= k.2)%nat).
Proof.
  split; [apply coefficient_add_all_mixed|]. split; [apply is_Some_add_all|].
  intros Hcanon Hk. apply is_Some_add_all in Hk as [Hk|(c & _ & <-)].
  - by apply Hcanon.
  - apply canonical_ordered.
Qed.

Lemma elem_of_upper_cells n u v :
  (u, v) ∈ upper_cells n <-> (u <= v < n)%nat.
Proof.
  unfold upper_cells. rewrite list_elem_of_In, in_flat_map. split.
  - intros (u' & Hu' & Hin). apply list_elem_of_In, elem_of_range in Hu'.
    apply in_map_iff in Hin as (v' & [= -> ->] & Hv').
    apply list_elem_of_In, elem_of_range in Hv'. lia.
  - intros H. exists u. split.
    + apply list_elem_of_In, elem_of_range. lia.
    + apply in_map, list_elem_of_In, elem_of_range. lia.
Qed.

Lemma NoDup_upper_cells n : NoDup (upper_cells n).
Proof.
  unfold upper_cells.
  assert (G : forall rows, NoDup rows ->
            NoDup (flat_map (fun u => map (pair u) (range u n)) rows)).
  { induction rows as [|u rows IH]; intros Hnd; simpl; [constructor|].
    apply list.NoDup_cons in Hnd as [Hu Hnd].
    apply list.NoDup_app. split; [|split; [|by apply IH]].
    - apply (NoDup_fmap_2 (pair u)), NoDup_seq.
    - intros [a b] Hab Hin. apply list_elem_of_fmap in Hab as (b' & [= -> ->] & _).
      apply list_elem_of_In, in_flat_map in Hin as (u' & Hu' & Hin).
      apply in_map_iff in Hin as (v' & [= -> ->] & _).
      by apply Hu, list_elem_of_In. }
  apply G, NoDup_seq.
Qed.

Lemma length_upper_cells n : (2 * length (upper_cells n) = n * (n + 1))%nat.
Proof.
  unfold upper_cells.
  assert (G : forall k, (k <= n)%nat ->
            (2 * length (flat_map (fun u => map (pair u) (range u n)) (seq (n - k) k))
             = k * (k + 1))%nat).
  { induction k as [|k IH]; intros Hk; [done|].
    replace (n - S k)%nat with (n - k - 1)%nat by lia.
    simpl seq. simpl flat_map. rewrite length_app, length_map.
    unfold range at 1. rewrite length_seq.
    replace (S (n - k - 1)) with (n - k)%nat by lia.
    specialize (IH ltac:(lia)). lia. }
  specialize (G n ltac:(lia)). rewrite Nat.sub_diag in G.
  unfold range at 2. by rewrite Nat.sub_0_r.
Qed.

(** X2.  A QUBO returned by [build_knapsack_qubo] over [n] variables
    ([n = n_items + m_slack]) holds [n (n + 1) / 2] entries: every pair of
    variables is stored, in one orientation, even when its coefficient is
    zero. *)
Theorem build_knapsack_qubo_size weights values capacity penalty Q :
  build_knapsack_qubo weights values capacity penalty = inr Q ->
  let n := (length weights + m_slack capacity)%nat in
  (2 * size Q = n * (n + 1))%nat /\
  (forall u, (u < n)%nat -> forall v, (v < n)%nat ->
             is_Some (Q !! (u, v)) \/ is_Some (Q !! (v, u))).
Proof.
  intros HQ n. split.
  - rewrite <- length_upper_cells.
    rewrite <- size_dom, <- (size_list_to_set (C := gset (nat * nat)) (upper_cells n))
      by apply NoDup_upper_cells.
    do 2 f_equal. apply set_eq. intros [u v].
    rewrite elem_of_dom, elem_of_list_to_set, elem_of_upper_cells.
    apply (is_Some_build _ _ _ _ _ u v HQ).
  - intros u Hu v Hv. destruct (le_lt_dec u v).
    + left. apply (is_Some_build _ _ _ _ _ u v HQ). unfold n in *. lia.
    + right. apply (is_Some_build _ _ _ _ _ v u HQ). unfold n in *. lia.
Qed.

Lemma build_knapsack_qubo_size_witness :
  exists Q,
    build_knapsack_qubo [2; 3; 4]%Z [Qc_of_Z 3; Qc_of_Z 4; Qc_of_Z 5] 5 1 = inr Q /\
    let n := (length [2; 3; 4]%Z + m_slack 5)%nat in
    (2 * size Q = n * (n + 1))%nat /\
    (forall u, (u < n)%nat -> forall v, (v < n)%nat ->
               is_Some (Q !! (u, v)) \/ is_Some (Q !! (v, u))).
Proof.
  eexists. split; [apply build_valid; [reflexivity | lia]|].
  apply (build_knapsack_qubo_size [2; 3; 4]%Z [Qc_of_Z 3; Qc_of_Z 4; Qc_of_Z 5] 5 1).
  apply build_valid; [reflexivity | lia].
Defined.

(** ** The energy of selections *)



























(** ** The decoders and the feasibility checks *)

Lemma foldl_flat_map {A B C} (g : B -> list C) (f : A -> C -> A) (l : list B) :
  forall a, foldl (fun acc b => foldl f acc (g b)) a l = foldl f a (flat_map g l).
Proof.
  induction l as [|b l IH]; intros a; simpl; [done|].
  by rewrite foldl_app, IH.
Qed.

Lemma foldl_map {A B C} (h : B -> C) (f : A -> C -> A) (l : list B) :
  forall a, foldl f a (map h l) = foldl (fun acc b => f acc (h b)) a l.
Proof. induction l as [|b l IH]; intros a; simpl; [done|]. apply IH. Qed.

(** The decoder's double loop collects the selected cells. *)
Lemma foldl_collect {A} (p : A -> bool) (l : list A) : forall acc,
  foldl (fun acc x => if p x then acc ++ [x] else acc) acc l = acc ++ List.filter p l.
Proof.
  induction l as [|x l IH]; intros acc; simpl; [by rewrite app_nil_r|].
  rewrite IH. destruct (p x); [by rewrite <- app_assoc | done].
Qed.

Lemma assignments_selected_cells sample n_workers n_jobs :
  foldl (fun acc i =>
           foldl (fun acc j =>
                    if selected sample (i * n_jobs + j) then acc ++ [(i, j)] else acc)
                 acc (range 0 n_jobs))
        [] (range 0 n_workers)
  = selected_cells sample n_workers n_jobs.
Proof.
  unfold selected_cells, cells.
  rewrite <- (app_nil_l (List.filter _ _)).
  rewrite <- (foldl_collect (fun p => selected sample (p.1 * n_jobs + p.2))).
  rewrite <- (foldl_flat_map (fun i => map (pair i) (range 0 n_jobs))).
  apply foldl_ext_all. intros acc i. by rewrite foldl_map.
Qed.

Lemma lookup_bump counts x i :
  bump counts x !! i
  = (fun c => (c + (if (i =? x)%nat then 1 else 0))%Z) <$> counts !! i.
Proof.
  unfold bump. destruct (Nat.eqb_spec i x) as [->|Hne].
  - rewrite list_lookup_alter_eq. done.
  - rewrite list_lookup_alter_ne by done.
    destruct (counts !! i); simpl; [f_equal; lia | done].
Qed.

Lemma lookup_foldl_bump (indices : list nat) : forall counts i,
  foldl bump counts indices !! i
  = (fun c => (c + Z.of_nat (length (List.filter (Nat.eqb i) indices)))%Z)
      <$> counts !! i.
Proof.
  induction indices as [|x indices IH]; intros counts i; simpl.
  - destruct (counts !! i); simpl; [f_equal; lia | done].
  - rewrite IH, lookup_bump. destruct (counts !! i) as [c|]; simpl; [|done].
    f_equal. destruct (i =? x)%nat; simpl; lia.
Qed.

Lemma foldl_bump_zero (indices : list nat) n :
  foldl bump (replicate n 0%Z) indices
  = map (fun i => Z.of_nat (length (List.filter (Nat.eqb i) indices))) (range 0 n).
Proof.
  apply list_eq. intros i. rewrite lookup_foldl_bump.
  unfold range. rewrite Nat.sub_0_r, list_lookup_fmap.
  destruct (decide (i < n)%nat) as [Hlt|Hge].
  - rewrite lookup_replicate_2, lookup_seq_lt by done. done.
  - rewrite (proj1 (lookup_replicate_None _ _ _)), lookup_seq_ge by lia. done. 
Qed.

Lemma foldl_counts (sel : nat * nat -> bool) (l : list (nat * nat)) :
  forall worker_counts job_counts,
  foldl (fun '(worker_counts, job_counts) p =>
           if sel p then (bump worker_counts p.1, bump job_counts p.2)
           else (worker_counts, job_counts))
        (worker_counts, job_counts) l
  = (foldl bump worker_counts (map fst (List.filter sel l)),
     foldl bump job_counts (map snd (List.filter sel l))).
Proof.
  induction l as [|p l IH]; intros wc jc; simpl; [done|].
  destruct (sel p); simpl; apply IH.
Qed.

(** Counting in a list without repetitions. *)
Lemma length_filter_eqb (q : nat -> bool) (x : nat) (l : list nat) :
  NoDup l ->
  length (List.filter (fun y => (x =? y)%nat && q y) l)
  = if decide (x ∈ l) then (if q x then 1 else 0)%nat else 0%nat.
Proof.
  induction l as [|y l IH]; intros Hnd.
  - rewrite decide_False by apply not_elem_of_nil. done.
  - apply list.NoDup_cons in Hnd as [Hy Hnd]. specialize (IH Hnd). simpl.
    destruct (Nat.eqb_spec x y) as [->|Hne]; simpl.
    + rewrite decide_True by left. rewrite decide_False in IH by done.
      destruct (q y); simpl; lia.
    + rewrite IH. destruct (decide (x ∈ l)) as [Hin|Hnin].
      * rewrite decide_True by (by right). done.
      * rewrite decide_False; [done|]. rewrite elem_of_cons. tauto.
Qed.

Lemma NoDup_range lo hi : NoDup (range lo hi).
Proof. apply NoDup_seq. Qed.

Lemma filter_fst_row (sel : nat * nat -> bool) (i i' : nat) (js : list nat) :
  length (List.filter (Nat.eqb i) (map fst (List.filter sel (map (pair i') js))))
  = if (i =? i')%nat then length (List.filter (fun j => sel (i, j)) js) else 0%nat.
Proof.
  induction js as [|j js IH]; simpl; [by destruct (i =? i')%nat|].
  destruct (Nat.eqb_spec i i') as [->|Hne].
  - destruct (sel (i', j)); simpl; [rewrite Nat.eqb_refl; simpl|]; by rewrite IH.
  - destruct (sel (i', j)); simpl; [|done].
    destruct (Nat.eqb_spec i i'); [done|]. done.
Qed.

Lemma filter_snd_row (sel : nat * nat -> bool) (j i : nat) (js : list nat) :
  length (List.filter (Nat.eqb j) (map snd (List.filter sel (map (pair i) js))))
  = length (List.filter (fun j' => (j =? j')%nat && sel (i, j')) js).
Proof.
  induction js as [|j' js IH]; simpl; [done|].
  destruct (sel (i, j')); simpl.
  - destruct (j =? j')%nat; simpl; by rewrite IH.
  - rewrite andb_false_r. done.
Qed.

Lemma filter_length_app {A} (p : A -> bool) l1 l2 :
  length (List.filter p (l1 ++ l2))
  = (length (List.filter p l1) + length (List.filter p l2))%nat.
Proof. by rewrite List.filter_app, length_app. Qed.

Lemma count_rows (sel : nat * nat -> bool) (i : nat) (rows js : list nat) :
  NoDup rows ->
  length (List.filter (Nat.eqb i)
            (map fst (List.filter sel (flat_map (fun i' => map (pair i') js) rows))))
  = if decide (i ∈ rows) then length (List.filter (fun j => sel (i, j)) js) else 0%nat.
Proof.
  induction rows as [|i' rows IH]; intros Hnd.
  - rewrite decide_False by apply not_elem_of_nil. done.
  - apply list.NoDup_cons in Hnd as [Hi' Hnd]. simpl.
    rewrite List.filter_app, map_app, filter_length_app, filter_fst_row, (IH Hnd).
    destruct (Nat.eqb_spec i i') as [->|Hne].
    + rewrite (decide_False (P := i' ∈ rows)) by done.
      rewrite decide_True by left. lia.
    + destruct (decide (i ∈ rows)).
      * rewrite decide_True by (by right). done.
      * rewrite decide_False; [done|]. rewrite elem_of_cons. tauto.
Qed.

Lemma count_cols (sel : nat * nat -> bool) (j : nat) (rows js : list nat) :
  NoDup js ->
  length (List.filter (Nat.eqb j)
            (map snd (List.filter sel (flat_map (fun i => map (pair i) js) rows))))
  = if decide (j ∈ js) then length (List.filter (fun i => sel (i, j)) rows) else 0%nat.
Proof.
  intros Hnd. induction rows as [|i rows IH]; simpl.
  - by destruct (decide (j ∈ js)).
  - rewrite List.filter_app, map_app, filter_length_app, filter_snd_row, IH.
    rewrite (length_filter_eqb (fun j' => sel (i, j')) j js Hnd).
    destruct (decide (j ∈ js)); [|done].
    destruct (sel (i, j)); simpl; lia.
Qed.

Lemma check_assignment_constraints_eq sample costs row0 :
  costs !! 0%nat = Some row0 ->
  check_assignment_constraints sample costs
  = let worker_counts := map (jobs_of sample (length row0)) (range 0 (length costs)) in
    let job_counts :=
      map (workers_of sample (length costs) (length row0)) (range 0 (length row0)) in
    Some (forallb (fun c => (c =? 1)%Z) worker_counts
          && forallb (fun c => (c =? 1)%Z) job_counts,
          worker_counts, job_counts).
Proof.
  intros H0. unfold check_assignment_constraints. rewrite H0. simpl.
  set (nw := length costs). set (nj := length row0).
  set (sel := fun p : nat * nat => selected sample (p.1 * nj + p.2)).
  rewrite (foldl_ext_all _
     (fun st i => foldl (fun '(worker_counts, job_counts) p =>
                           if sel p then (bump worker_counts p.1, bump job_counts p.2)
                           else (worker_counts, job_counts))
                        st (map (pair i) (range 0 nj)))).
  2:{ intros st i. rewrite foldl_map. apply foldl_ext_all. by intros [wc jc] j. }
  rewrite (foldl_flat_map (fun i => map (pair i) (range 0 nj))).
  rewrite foldl_counts, !foldl_bump_zero.
  assert (Hw : map (fun i => Z.of_nat (length (List.filter (Nat.eqb i)
                 (map fst (List.filter sel
                    (flat_map (fun i0 => map (pair i0) (range 0 nj)) (range 0 nw)))))))
                 (range 0 nw)
               = map (jobs_of sample nj) (range 0 nw)).
  { apply map_ext_in. intros i Hi. apply list_elem_of_In in Hi.
    rewrite count_rows by apply NoDup_range. rewrite decide_True by done. done. }
  assert (Hj : map (fun j => Z.of_nat (length (List.filter (Nat.eqb j)
                 (map snd (List.filter sel
                    (flat_map (fun i0 => map (pair i0) (range 0 nj)) (range 0 nw)))))))
                 (range 0 nj)
               = map (workers_of sample nw nj) (range 0 nj)).
  { apply map_ext_in. intros j Hj. apply list_elem_of_In in Hj.
    rewrite count_cols by apply NoDup_range. rewrite decide_True by done. done. }
  rewrite Hw, Hj. done.
Qed.

Lemma elem_of_cells nw nj i j :
  (i, j) ∈ cells nw nj <-> (i < nw)%nat /\ (j < nj)%nat.
Proof.
  unfold cells. rewrite list_elem_of_In, in_flat_map. split.
  - intros (i' & Hi' & Hin). apply list_elem_of_In in Hi'.
    apply elem_of_range in Hi'. apply in_map_iff in Hin as (j' & [= -> ->] & Hj').
    apply list_elem_of_In, elem_of_range in Hj'. lia.
  - intros [Hi Hj]. exists i. split.
    + apply list_elem_of_In, elem_of_range. lia.
    + apply in_map. apply list_elem_of_In, elem_of_range. lia.
Qed.

Lemma elem_of_selected_cells sample nw nj i j :
  (i, j) ∈ selected_cells sample nw nj
  <-> (i < nw)%nat /\ (j < nj)%nat /\ selected sample (i * nj + j) = true.
Proof.
  unfold selected_cells. rewrite list_elem_of_In, filter_In, <- list_elem_of_In.
  rewrite elem_of_cells. simpl. tauto.
Qed.

Lemma var_index_cells nw nj :
  map (fun p : nat * nat => (p.1 * nj + p.2)%nat) (cells nw nj) = seq 0 (nw * nj).
Proof.
  unfold cells. induction nw as [|nw IH]; [done|].
  rewrite range_0_S, flat_map_app, map_app, IH. simpl. rewrite app_nil_r.
  rewrite map_map. simpl. unfold range. rewrite Nat.sub_0_r.
  replace (nj + nw * nj)%nat with (nw * nj + nj)%nat by lia.
  rewrite seq_app. f_equal. simpl.
  pose proof (fmap_add_seq (nw * nj) 0 nj) as H.
  rewrite Nat.add_0_r in H. rewrite <- H. apply map_ext. intros j. lia.
Qed.

Lemma StronglySorted_filter {A} (R : A -> A -> Prop) (p : A -> bool) l :
  StronglySorted R l -> StronglySorted R (List.filter p l).
Proof.
  induction 1 as [|x l Hs IH Hx]; simpl; [constructor|].
  destruct (p x); [|done]. constructor; [done|].
  apply list.Forall_forall. intros y Hy.
  apply list_elem_of_In, filter_In in Hy as [Hy _].
  rewrite list.Forall_forall in Hx. apply Hx. by apply list_elem_of_In.
Qed.

Lemma StronglySorted_map_inv {A B} (R : B -> B -> Prop) (f : A -> B) l :
  StronglySorted R (map f l) -> StronglySorted (fun a b => R (f a) (f b)) l.
Proof.
  induction l as [|x l IH]; simpl; intros Hs; [constructor|].
  apply StronglySorted_inv in Hs as [Hs Hx].
  constructor; [by apply IH|].
  apply list.Forall_forall. intros y Hy.
  rewrite list.Forall_forall in Hx. apply Hx. by apply list_elem_of_fmap_2.
Qed.

Lemma StronglySorted_seq j n : StronglySorted lt (seq j n).
Proof.
  revert j. induction n as [|n IH]; intros j; simpl; constructor; [apply IH|].
  apply list.Forall_forall. intros y Hy. apply elem_of_seq in Hy. lia.
Qed.

Lemma selected_cells_sorted sample nw nj :
  StronglySorted (fun p q : nat * nat => (p.1 * nj + p.2 < q.1 * nj + q.2)%nat)
                 (selected_cells sample nw nj).
Proof.
  unfold selected_cells. apply StronglySorted_filter.
  apply (StronglySorted_map_inv lt (fun p : nat * nat => (p.1 * nj + p.2)%nat)).
  rewrite var_index_cells. apply StronglySorted_seq.
Qed.

Lemma decode_assignment_solution_eq sample costs row0 :
  costs !! 0%nat = Some row0 ->
  decode_assignment_solution sample costs
  = cs ← mapM (fun '(i, j) => row ← costs !! i; row !! j)
            (selected_cells sample (length costs) (length row0));
    Some (selected_cells sample (length costs) (length row0), sumQ cs).
Proof.
  intros H0. unfold decode_assignment_solution. rewrite H0. simpl.
  by rewrite assignments_selected_cells.
Qed.

Lemma mapM_cost_at costs (l : list (nat * nat)) cs :
  mapM (fun '(i, j) => row ← costs !! i; row !! j) l = Some cs ->
  cs = map (cost_at costs) l.
Proof.
  revert cs. induction l as [|[i j] l IH]; intros cs; simpl.
  - by intros [= <-].
  - unfold cost_at at 1. simpl.
    destruct (costs !! i ≫= _) as [c|] eqn:E; simpl; [|done].
    destruct (mapM _ l) as [cs'|]; simpl; [|done].
    intros [= <-]. f_equal. by apply IH.
Qed.

Lemma length_filter_one {A} (p : A -> bool) (l : list A) :
  NoDup l ->
  length (List.filter p l) = 1%nat
  <-> exists x, x ∈ l /\ p x = true /\ forall y, y ∈ l -> p y = true -> y = x.
Proof.
  induction l as [|a l IH]; intros Hnd; simpl.
  - split; [done|]. intros (x & Hx & _). by apply elem_of_nil in Hx.
  - apply list.NoDup_cons in Hnd as [Ha Hnd]. specialize (IH Hnd).
    destruct (p a) eqn:Hpa; simpl.
    + split.
      * intros Hlen. exists a. split; [left|]. split; [done|].
        intros y Hy Hpy. apply elem_of_cons in Hy as [->|Hy]; [done|].
        exfalso. assert (Hin : In y (List.filter p l)).
        { apply filter_In. split; [by apply list_elem_of_In | done]. }
        destruct (List.filter p l); [done | simpl in Hlen; lia].
      * intros (x & Hx & Hpx & Huniq).
        assert (x = a) as -> by (symmetry; apply Huniq; [left | done]).
        f_equal. destruct (List.filter p l) as [|y rest] eqn:E; [done|].
        exfalso. assert (Hin : In y (List.filter p l)) by (rewrite E; by left).
        apply filter_In in Hin as [Hin Hpy]. apply list_elem_of_In in Hin.
        apply Ha. rewrite <- (Huniq y); [done | by right | done].
    + rewrite IH. split.
      * intros (x & Hx & Hpx & Huniq). exists x. split; [by right|].
        split; [done|]. intros y Hy Hpy.
        apply elem_of_cons in Hy as [->|Hy]; [congruence | by apply Huniq].
      * intros (x & Hx & Hpx & Huniq). exists x.
        apply elem_of_cons in Hx as [->|Hx]; [congruence|].
        split; [done|]. split; [done|]. intros y Hy. apply Huniq. by right.
Qed.

Lemma count_one (p : nat -> bool) n :
  Z.of_nat (length (List.filter p (range 0 n))) = 1%Z
  <-> exists j, (j < n)%nat /\ p j = true /\
                forall j', (j' < n)%nat -> p j' = true -> j' = j.
Proof.
  etrans; [|etrans; [apply (length_filter_one p (range 0 n) (NoDup_range 0 n))|]].
  - lia.
  - split.
    + intros (j & Hj & Hp & Huniq). apply elem_of_range in Hj.
      exists j. split; [lia|]. split; [done|].
      intros j' Hj'. apply Huniq, elem_of_range. lia.
    + intros (j & Hj & Hp & Huniq). exists j.
      split; [apply elem_of_range; lia|]. split; [done|].
      intros j' Hj'. apply elem_of_range in Hj'. apply Huniq. lia.
Qed.

(** Both families of counts add up to the number of selected cells. *)
Lemma length_filter_row (sel : nat * nat -> bool) i js :
  length (List.filter sel (map (pair i) js))
  = length (List.filter (fun j => sel (i, j)) js).
Proof.
  induction js as [|j js IH]; simpl; [done|].
  destruct (sel (i, j)); simpl; by rewrite IH.
Qed.

Lemma sum_rows (sel : nat * nat -> bool) rows js :
  sumZ (map (fun i => Z.of_nat (length (List.filter (fun j => sel (i, j)) js))) rows)
  = Z.of_nat (length (List.filter sel (flat_map (fun i => map (pair i) js) rows))).
Proof.
  induction rows as [|i rows IH]; simpl; [done|].
  rewrite filter_length_app, length_filter_row, IH. lia.
Qed.

Lemma sum_indicator (q : nat -> bool) js :
  sumZ (map (fun j => if q j then 1%Z else 0%Z) js)
  = Z.of_nat (length (List.filter q js)).
Proof.
  induction js as [|j js IH]; simpl; [done|].
  destruct (q j); simpl; lia.
Qed.

Lemma sumZ_map_plus {A} (f g : A -> Z) l :
  sumZ (map (fun x => (f x + g x)%Z) l) = (sumZ (map f l) + sumZ (map g l))%Z.
Proof. induction l as [|x l IH]; simpl; lia. Qed.

Lemma sum_cols (sel : nat * nat -> bool) rows js :
  sumZ (map (fun j => Z.of_nat (length (List.filter (fun i => sel (i, j)) rows))) js)
  = Z.of_nat (length (List.filter sel (flat_map (fun i => map (pair i) js) rows))).
Proof.
  induction rows as [|i rows IH]; simpl.
  - induction js as [|j js IHj]; simpl; [done | lia].
  - rewrite filter_length_app, length_filter_row, Nat2Z.inj_add, <- IH.
    rewrite <- sum_indicator, <- sumZ_map_plus.
    f_equal. apply map_ext. intros j. destruct (sel (i, j)); simpl; lia.
Qed.

Lemma sumZ_all_one (f : nat -> Z) l :
  (forall x, x ∈ l -> f x = 1%Z) -> sumZ (map f l) = Z.of_nat (length l).
Proof.
  induction l as [|x l IH]; intros H; [done|]. simpl map. simpl sumZ.
  rewrite (H x) by left. rewrite IH; [simpl length; lia|].
  intros y Hy. apply H. by right.
Qed.

Lemma forallb_map_range (f : nat -> Z) n :
  forallb (fun c => (c =? 1)%Z) (map f (range 0 n)) = true
  <-> forall i, (i < n)%nat -> f i = 1%Z.
Proof.
  rewrite forallb_forall. split.
  - intros H i Hi. apply Z.eqb_eq, H, in_map, list_elem_of_In, elem_of_range. lia.
  - intros H c Hc. apply in_map_iff in Hc as (i & <- & Hi).
    apply list_elem_of_In, elem_of_range in Hi. apply Z.eqb_eq, H. lia.
Qed.

Lemma lookup_map_range {A} (f : nat -> A) n i :
  (i < n)%nat -> map f (range 0 n) !! i = Some (f i).
Proof.
  intros Hi. unfold range. rewrite Nat.sub_0_r, list_lookup_fmap, lookup_seq_lt by done.
  done.
Qed.

Lemma length_map_range {A} (f : nat -> A) n : length (map f (range 0 n)) = n.
Proof. unfold range. by rewrite length_map, length_seq, Nat.sub_0_r. Qed.

(** X6.  [check_assignment_constraints] raises ([IndexError] on [costs[0]])
    exactly when [costs] is empty.  Otherwise it returns one count per
    worker and one per column of the first row: [worker_counts[i]] is the
    number of [j < n_jobs] whose variable [i * n_jobs + j] is 1 in the
    sample, [job_counts[j]] the number of such [i < n_workers], and
    [feasible] holds exactly when all those numbers are 1. *)
Theorem check_assignment_constraints_counts sample costs :
  match costs !! 0%nat with
  | None => check_assignment_constraints sample costs = None
  | Some row0 =>
      exists feasible worker_counts job_counts,
        check_assignment_constraints sample costs
        = Some (feasible, worker_counts, job_counts) /\
        length worker_counts = length costs /\
        length job_counts = length row0 /\
        (forall i, (i < length costs)%nat ->
                   worker_counts !! i = Some (jobs_of sample (length row0) i)) /\
        (forall j, (j < length row0)%nat ->
                   job_counts !! j
                   = Some (workers_of sample (length costs) (length row0) j)) /\
        (feasible = true
         <-> (forall i, (i < length costs)%nat ->
                        jobs_of sample (length row0) i = 1%Z) /\
             (forall j, (j < length row0)%nat ->
                        workers_of sample (length costs) (length row0) j = 1%Z))
  end.
Proof.
  destruct (costs !! 0%nat) as [row0|] eqn:H0.
  - rewrite (check_assignment_constraints_eq sample costs row0 H0). simpl.
    eexists _, _, _. split; [reflexivity|].
    rewrite !length_map_range. split; [done|]. split; [done|].
    split; [intros i Hi; by apply lookup_map_range|].
    split; [intros j Hj; by apply lookup_map_range|].
    rewrite andb_true_iff, !forallb_map_range. done.
  - unfold check_assignment_constraints. by rewrite H0.
Qed.

Lemma check_assignment_constraints_inv sample costs feasible wc jc :
  check_assignment_constraints sample costs = Some (feasible, wc, jc) ->
  exists row0,
    costs !! 0%nat = Some row0 /\
    wc = map (jobs_of sample (length row0)) (range 0 (length costs)) /\
    jc = map (workers_of sample (length costs) (length row0)) (range 0 (length row0)) /\
    feasible = forallb (fun c => (c =? 1)%Z) wc && forallb (fun c => (c =? 1)%Z) jc.
Proof.
  destruct (costs !! 0%nat) as [row0|] eqn:H0.
  - rewrite (check_assignment_constraints_eq sample costs row0 H0). simpl.
    intros [= <- <- <-]. by exists row0.
  - unfold check_assignment_constraints. by rewrite H0.
Qed.

Lemma sum_jobs_of sample nw nj :
  sumZ (map (jobs_of sample nj) (range 0 nw))
  = Z.of_nat (length (selected_cells sample nw nj)).
Proof.
  unfold jobs_of, selected_cells, cells.
  apply (sum_rows (fun p => selected sample (p.1 * nj + p.2))).
Qed.

Lemma sum_workers_of sample nw nj :
  sumZ (map (workers_of sample nw nj) (range 0 nj))
  = Z.of_nat (length (selected_cells sample nw nj)).
Proof.
  unfold workers_of, selected_cells, cells.
  apply (sum_cols (fun p => selected sample (p.1 * nj + p.2))).
Qed.

(** X7.  When [check_assignment_constraints] returns, [feasible] holds
    exactly when every worker has one and only one selected job and every job
    one and only one selected worker; a feasible sample exists only for a
    square matrix; the two count lists have the same sum, and it is the number
    of pairs [decode_assignment_solution] returns for the same sample. *)
Theorem check_assignment_constraints_matching sample costs feasible worker_counts job_counts :
  check_assignment_constraints sample costs
  = Some (feasible, worker_counts, job_counts) ->
  let n_workers := length costs in
  let n_jobs := length (default [] (costs !! 0%nat)) in
  (feasible = true
   <-> (forall i, (i < n_workers)%nat ->
          exists j, (j < n_jobs)%nat /\ selected sample (i * n_jobs + j) = true /\
                    forall j', (j' < n_jobs)%nat ->
                               selected sample (i * n_jobs + j') = true -> j' = j) /\
       (forall j, (j < n_jobs)%nat ->
          exists i, (i < n_workers)%nat /\ selected sample (i * n_jobs + j) = true /\
                    forall i', (i' < n_workers)%nat ->
                               selected sample (i' * n_jobs + j) = true -> i' = i)) /\
  (feasible = true -> n_workers = n_jobs) /\
  sumZ worker_counts = sumZ job_counts /\
  (forall assignments total_cost,
      decode_assignment_solution sample costs = Some (assignments, total_cost) ->
      sumZ worker_counts = Z.of_nat (length assignments)).
Proof.
  intros Hcheck.
  apply check_assignment_constraints_inv in Hcheck as (row0 & H0 & -> & -> & Hf).
  rewrite H0. simpl. set (nw := length costs). set (nj := length row0).
  assert (Hiff : feasible = true
                 <-> (forall i, (i < nw)%nat -> jobs_of sample nj i = 1%Z) /\
                     (forall j, (j < nj)%nat -> workers_of sample nw nj j = 1%Z)).
  { rewrite Hf, andb_true_iff, !forallb_map_range. done. }
  clear Hf. split; [|split; [|split]].
  - rewrite Hiff. unfold jobs_of, workers_of. split.
    + intros [Hw Hj]. split.
      * intros i Hi. apply (count_one (fun j => selected sample (i * nj + j))), Hw, Hi.
      * intros j Hj'. apply (count_one (fun i => selected sample (i * nj + j))), Hj, Hj'.
    + intros [Hw Hj]. split.
      * intros i Hi. apply (count_one (fun j => selected sample (i * nj + j))), Hw, Hi.
      * intros j Hj'. apply (count_one (fun i => selected sample (i * nj + j))), Hj, Hj'.
  - intros Hfeas. apply Hiff in Hfeas as [Hw Hj].
    pose proof (sum_jobs_of sample nw nj) as H1.
    pose proof (sum_workers_of sample nw nj) as H2.
    rewrite sumZ_all_one in H1 by (intros i Hi; apply Hw; apply elem_of_range in Hi; lia).
    rewrite sumZ_all_one in H2 by (intros j Hj'; apply Hj; apply elem_of_range in Hj'; lia).
    unfold range in H1, H2. rewrite length_seq, Nat.sub_0_r in H1, H2. lia.
  - by rewrite sum_jobs_of, sum_workers_of.
  - intros assignments total_cost Hdec.
    rewrite (decode_assignment_solution_eq sample costs row0 H0) in Hdec.
    destruct (mapM _ _) as [cs|]; simpl in Hdec; [|done].
    injection Hdec as <- _. apply sum_jobs_of.
Qed.

Lemma check_assignment_constraints_matching_witness :
  let sample : gmap nat Z := {[ 1%nat := 1%Z; 2%nat := 1%Z ]} in
  let costs := [[Qc_of_Z 4; Qc_of_Z 1]; [Qc_of_Z 2; Qc_of_Z 3]] in
  check_assignment_constraints sample costs = Some (true, [1; 1]%Z, [1; 1]%Z) /\
  (true = true
   <-> (forall i, (i < 2)%nat ->
          exists j, (j < 2)%nat /\ selected sample (i * 2 + j) = true /\
                    forall j', (j' < 2)%nat ->
                               selected sample (i * 2 + j') = true -> j' = j) /\
       (forall j, (j < 2)%nat ->
          exists i, (i < 2)%nat /\ selected sample (i * 2 + j) = true /\
                    forall i', (i' < 2)%nat ->
                               selected sample (i' * 2 + j) = true -> i' = i)) /\
  (true = true -> 2%nat = 2%nat) /\
  sumZ [1; 1]%Z = sumZ [1; 1]%Z /\
  (forall assignments total_cost,
      decode_assignment_solution sample costs = Some (assignments, total_cost) ->
      sumZ [1; 1]%Z = Z.of_nat (length assignments)).
Proof.
  intros sample costs. split; [by vm_compute|].
  apply (check_assignment_constraints_matching sample costs true [1; 1]%Z [1; 1]%Z).
  by vm_compute.
Defined.

Lemma check_assignment_feasible_square sample costs feasible worker_counts job_counts :
  check_assignment_constraints sample costs
  = Some (feasible, worker_counts, job_counts) ->
  feasible = true ->
  length costs = length (default [] (costs !! 0%nat)) /\
  forall assignments total_cost,
    decode_assignment_solution sample costs = Some (assignments, total_cost) ->
    length assignments = length costs.
Proof.
  intros Hcheck Hfeas.
  apply check_assignment_constraints_inv in Hcheck as (row0 & H0 & -> & -> & Hf).
  rewrite H0. simpl. set (nw := length costs). set (nj := length row0).
  rewrite Hfeas in Hf. symmetry in Hf.
  rewrite andb_true_iff, !forallb_map_range in Hf. destruct Hf as [Hw Hj].
  pose proof (sum_jobs_of sample nw nj) as H1.
  pose proof (sum_workers_of sample nw nj) as H2.
  rewrite sumZ_all_one in H1 by (intros i Hi; apply Hw; apply elem_of_range in Hi; lia).
  rewrite sumZ_all_one in H2 by (intros j Hj'; apply Hj; apply elem_of_range in Hj'; lia).
  unfold range in H1, H2. rewrite length_seq, Nat.sub_0_r in H1, H2.
  split; [lia|].
  intros assignments total_cost Hdec.
  rewrite (decode_assignment_solution_eq sample costs row0 H0) in Hdec.
  destruct (mapM _ _) as [cs|]; simpl in Hdec; [|done].
  injection Hdec as <- _. fold nw nj. lia.
Qed.

(** X8.  When [decode_assignment_solution] returns, [assignments] holds
    exactly the pairs [(i, j)], [i < n_workers], [j < n_jobs], whose variable
    [i * n_jobs + j] is 1 in the sample, each once and in increasing order of
    the variable index, and [total_cost] is the sum of [costs[i][j]] over
    them. *)
Theorem decode_assignment_solution_result sample costs assignments total_cost :
  decode_assignment_solution sample costs = Some (assignments, total_cost) ->
  let n_jobs := length (default [] (costs !! 0%nat)) in
  (forall i j, (i, j) ∈ assignments
               <-> (i < length costs)%nat /\ (j < n_jobs)%nat /\
                   selected sample (i * n_jobs + j) = true) /\
  StronglySorted (fun p q : nat * nat =>
                    (p.1 * n_jobs + p.2 < q.1 * n_jobs + q.2)%nat) assignments /\
  total_cost = sumQ (map (cost_at costs) assignments).
Proof.
  intros Hdec.
  destruct (costs !! 0%nat) as [row0|] eqn:H0;
    [|unfold decode_assignment_solution in Hdec; by rewrite H0 in Hdec].
  rewrite (decode_assignment_solution_eq sample costs row0 H0) in Hdec. simpl.
  destruct (mapM _ _) as [cs|] eqn:Hcs; simpl in Hdec; [|done].
  injection Hdec as <- <-.
  split; [intros i j; apply elem_of_selected_cells|].
  split; [apply selected_cells_sorted|].
  f_equal. by apply mapM_cost_at.
Qed.

Lemma decode_assignment_solution_result_witness :
  let sample : gmap nat Z := {[ 1%nat := 1%Z; 2%nat := 1%Z ]} in
  let costs := [[Qc_of_Z 4; Qc_of_Z 1]; [Qc_of_Z 2; Qc_of_Z 3]] in
  decode_assignment_solution sample costs = Some ([(0, 1); (1, 0)]%nat, Qc_of_Z 3) /\
  (forall i j, (i, j) ∈ [(0, 1); (1, 0)]%nat
               <-> (i < 2)%nat /\ (j < 2)%nat /\ selected sample (i * 2 + j) = true) /\
  StronglySorted (fun p q : nat * nat => (p.1 * 2 + p.2 < q.1 * 2 + q.2)%nat)
                 [(0, 1); (1, 0)]%nat /\
  Qc_of_Z 3 = sumQ (map (cost_at costs) [(0, 1); (1, 0)]%nat).
Proof.
  intros sample costs.
  assert (H : decode_assignment_solution sample costs
              = Some ([(0, 1); (1, 0)]%nat, Qc_of_Z 3)).
  { vm_compute. do 2 f_equal. by apply Qc_is_canon. }
  split; [exact H|].
  apply (decode_assignment_solution_result sample costs _ _ H).
Defined.

(** X9.  [decode_assignment_solution] raises [IndexError] exactly when
    [costs] is empty, or some selected cell [(i, j)] (with [j] below the
    length of the first row) lies beyond the end of row [i]: rows longer than
    the first, and short rows without a selected cell, go unnoticed. *)
Theorem decode_assignment_solution_fails sample costs :
  decode_assignment_solution sample costs = None
  <-> costs = [] \/
      exists i j row,
        costs !! i = Some row /\ (j < length (default [] (costs !! 0%nat)))%nat /\
        selected sample (i * length (default [] (costs !! 0%nat)) + j) = true /\
        (length row <= j)%nat.
Proof.
  destruct (costs !! 0%nat) as [row0|] eqn:H0.
  - rewrite (decode_assignment_solution_eq sample costs row0 H0). simpl.
    set (nj := length row0).
    split.
    + intros Hnone. right.
      assert (Hn : ~ is_Some (mapM (fun '(i, j) => row ← costs !! i; row !! j)
                                   (selected_cells sample (length costs) nj))).
      { intros [cs Hcs]. by rewrite Hcs in Hnone. }
      rewrite mapM_is_Some in Hn.
      apply not_Forall_Exists in Hn; [|intros [i j]; simpl; apply _].
      apply list.Exists_exists in Hn as ([i j] & Hin & Hfail).
      apply elem_of_selected_cells in Hin as (Hi & Hj & Hsel).
      destruct (lookup_lt_is_Some_2 costs i Hi) as [row Hrow].
      exists i, j, row. repeat split; try done.
      simpl in Hfail. rewrite Hrow in Hfail. simpl in Hfail.
      destruct (le_lt_dec (length row) j) as [|Hlt]; [done|].
      exfalso. apply Hfail. by apply lookup_lt_is_Some_2.
    + intros [->|(i & j & row & Hrow & Hj & Hsel & Hlen)]; [done|].
      destruct (mapM _ _) as [cs|] eqn:Hcs; [|done]. exfalso.
      assert (Hs : is_Some (mapM (fun '(i, j) => row ← costs !! i; row !! j)
                                 (selected_cells sample (length costs) nj)))
        by (by rewrite Hcs).
      rewrite mapM_is_Some, list.Forall_forall in Hs.
      specialize (Hs (i, j)). simpl in Hs. rewrite Hrow in Hs. simpl in Hs.
      destruct Hs as [c Hc].
      * apply elem_of_selected_cells. split; [by apply lookup_lt_Some in Hrow | done].
      * apply lookup_lt_Some in Hc. lia.
  - unfold decode_assignment_solution. rewrite H0. simpl.
    split; [intros _; left; by destruct costs | done].
Qed.

Lemma mapM_lookup_default {A} (d : A) (l : list A) (indices : list nat) xs :
  mapM (fun i => l !! i) indices = Some xs ->
  xs = map (fun i => default d (l !! i)) indices.
Proof.
  revert xs. induction indices as [|i indices IH]; intros xs; simpl.
  - by intros [= <-].
  - destruct (l !! i) as [x|]; simpl; [|done].
    destruct (mapM _ indices) as [xs'|]; simpl; [|done].
    intros [= <-]. f_equal. by apply IH.
Qed.

Lemma elem_of_chosen sample n i :
  i ∈ List.filter (fun i => selected sample i) (range 0 n)
  <-> (i < n)%nat /\ selected sample i = true.
Proof.
  rewrite list_elem_of_In, filter_In, <- list_elem_of_In, elem_of_range. 
  split; [intros [? ?]; split; [lia | done] | intros [? ?]; split; [lia | done]].
Qed.

Lemma decode_knapsack_solution_weights sample (weights : list Z) :
  mapM (fun i => weights !! i)
       (List.filter (fun i => selected sample i) (range 0 (length weights)))
  = Some (picked (fun i => selected sample i) 0 weights).
Proof.
  unfold range. rewrite Nat.sub_0_r.
  apply (mapM_lookup_picked (fun i => selected sample i) weights []).
Qed.

(** X10.  When [decode_knapsack_solution] returns, [chosen_items] holds
    exactly the indices [i < len(weights)] that are 1 in the sample, in
    increasing order, [total_weight] and [total_value] are the sums of their
    weights and values, and [check_knapsack_constraints] on the same sample
    reports the same weight, feasible exactly when it is at most the
    capacity. *)
Theorem decode_knapsack_solution_result sample weights values chosen_items
        total_weight total_value :
  decode_knapsack_solution sample weights values
  = Some (chosen_items, total_weight, total_value) ->
  (forall i, i ∈ chosen_items
             <-> (i < length weights)%nat /\ selected sample i = true) /\
  StronglySorted lt chosen_items /\
  total_weight = selected_weight sample weights /\
  total_value = sumQ (map (fun i => default 0 (values !! i)) chosen_items) /\
  forall capacity,
    check_knapsack_constraints sample weights capacity
    = Some ((total_weight <=? capacity)%Z, total_weight).
Proof.
  unfold decode_knapsack_solution.
  rewrite decode_knapsack_solution_weights. simpl.
  destruct (mapM _ _) as [vs|] eqn:Hvs; simpl; [|done].
  intros [= <- <- <-].
  split; [intros i; apply elem_of_chosen|].
  split; [apply StronglySorted_filter, StronglySorted_seq|].
  pose proof (sumZ_picked (fun i => selected sample i) weights 0) as Hs.
  simpl in Hs.
  split; [exact Hs|]. split; [f_equal; by apply (mapM_lookup_default 0)|].
  intros capacity. rewrite check_knapsack_constraints_eq.
  unfold selected_weight. by rewrite Hs.
Qed.

Lemma decode_knapsack_solution_result_witness :
  let sample : gmap nat Z := {[ 0%nat := 1%Z; 1%nat := 1%Z; 4%nat := 1%Z ]} in
  let weights := [2; 3; 4]%Z in
  let values := [Qc_of_Z 3; Qc_of_Z 4; Qc_of_Z 5] in
  decode_knapsack_solution sample weights values = Some ([0; 1]%nat, 5%Z, Qc_of_Z 7) /\
  (forall i, i ∈ [0; 1]%nat <-> (i < 3)%nat /\ selected sample i = true) /\
  StronglySorted lt [0; 1]%nat /\
  5%Z = selected_weight sample weights /\
  Qc_of_Z 7 = sumQ (map (fun i => default 0 (values !! i)) [0; 1]%nat) /\
  forall capacity,
    check_knapsack_constraints sample weights capacity
    = Some ((5 <=? capacity)%Z, 5%Z).
Proof.
  intros sample weights values.
  assert (H : decode_knapsack_solution sample weights values
              = Some ([0; 1]%nat, 5%Z, Qc_of_Z 7)).
  { vm_compute. do 2 f_equal. by apply Qc_is_canon. }
  split; [exact H|].
  apply (decode_knapsack_solution_result sample weights values _ _ _ H).
Defined.

(** X11.  [decode_knapsack_solution] raises [IndexError] exactly when some
    selected item [i < len(weights)] has no value, [len(values) <= i]; a
    [values] list longer than [weights] is accepted and its tail ignored. *)
Theorem decode_knapsack_solution_fails sample weights values :
  decode_knapsack_solution sample weights values = None
  <-> exists i, (i < length weights)%nat /\ selected sample i = true /\
                (length values <= i)%nat.
Proof.
  unfold decode_knapsack_solution.
  rewrite decode_knapsack_solution_weights. simpl.
  set (chosen := List.filter _ _).
  split.
  - intros Hnone.
    assert (Hn : ~ is_Some (mapM (fun i => values !! i) chosen)).
    { intros [vs Hvs]. by rewrite Hvs in Hnone. }
    rewrite mapM_is_Some in Hn.
    apply not_Forall_Exists in Hn; [|intros i; simpl; apply _].
    apply list.Exists_exists in Hn as (i & Hin & Hfail).
    apply elem_of_chosen in Hin as [Hi Hsel].
    exists i. split; [done|]. split; [done|].
    destruct (le_lt_dec (length values) i) as [|Hlt]; [done|].
    exfalso. apply Hfail. by apply lookup_lt_is_Some_2.
  - intros (i & Hi & Hsel & Hlen).
    destruct (mapM _ chosen) as [vs|] eqn:Hvs; [|done]. exfalso.
    assert (Hs : is_Some (mapM (fun i => values !! i) chosen)) by (by rewrite Hvs).
    rewrite mapM_is_Some, list.Forall_forall in Hs.
    destruct (Hs i) as [v Hv]; [by apply elem_of_chosen|].
    apply lookup_lt_Some in Hv. lia.
Qed.

Lemma selected_agree sample sample' u :
  sample' !! u = sample !! u -> selected sample' u = selected sample u.
Proof. intros H. unfold selected. by rewrite H. Qed.

Lemma selected_cells_agree sample sample' nw nj :
  (forall u, (u < nw * nj)%nat -> sample' !! u = sample !! u) ->
  selected_cells sample' nw nj = selected_cells sample nw nj.
Proof.
  intros Hagree. unfold selected_cells. apply filter_ext_in.
  intros [i j] Hin. apply list_elem_of_In, elem_of_cells in Hin as [Hi Hj]. simpl.
  apply selected_agree, Hagree. nia.
Qed.

Lemma filter_length_ext {A} (p q : A -> bool) l :
  (forall x, x ∈ l -> p x = q x) -> List.filter p l = List.filter q l.
Proof. intros H. apply filter_ext_in. intros x Hx. by apply H, list_elem_of_In. Qed.

(** X12.  The decoders and the assignment check read the sample only at
    the variables of the problem: two samples that agree below
    [len(weights)], respectively below [n_workers * n_jobs], give the same
    results, so slack and other auxiliary variables of the QUBO never
    influence the decoded answer. *)
Theorem decoders_ignore_other_keys sample sample' weights values costs :
  (forall u, (u < length weights)%nat -> sample' !! u = sample !! u) ->
  (forall u, (u < length costs * length (default [] (costs !! 0%nat)))%nat ->
             sample' !! u = sample !! u) ->
  decode_knapsack_solution sample' weights values
  = decode_knapsack_solution sample weights values /\
  decode_assignment_solution sample' costs
  = decode_assignment_solution sample costs /\
  check_assignment_constraints sample' costs
  = check_assignment_constraints sample costs.
Proof.
  intros Hk Ha. split; [|split].
  - unfold decode_knapsack_solution.
    rewrite (filter_length_ext (fun i => selected sample' i) (fun i => selected sample i));
      [done|].
    intros i Hi. apply elem_of_range in Hi. apply selected_agree, Hk. lia.
  - destruct (costs !! 0%nat) as [row0|] eqn:H0.
    + rewrite !(decode_assignment_solution_eq _ costs row0 H0). simpl in Ha.
      by rewrite (selected_cells_agree sample sample' _ _ Ha).
    + unfold decode_assignment_solution. by rewrite H0.
  - destruct (costs !! 0%nat) as [row0|] eqn:H0.
    + rewrite !(check_assignment_constraints_eq _ costs row0 H0). simpl in *.
      assert (Hw : map (jobs_of sample' (length row0)) (range 0 (length costs))
                   = map (jobs_of sample (length row0)) (range 0 (length costs))).
      { apply map_ext_in. intros i Hi. apply list_elem_of_In, elem_of_range in Hi.
        unfold jobs_of. do 2 f_equal. apply filter_length_ext.
        intros j Hj. apply elem_of_range in Hj. apply selected_agree, Ha. nia. }
      assert (Hj : map (workers_of sample' (length costs) (length row0))
                       (range 0 (length row0))
                   = map (workers_of sample (length costs) (length row0))
                         (range 0 (length row0))).
      { apply map_ext_in. intros j Hj. apply list_elem_of_In, elem_of_range in Hj.
        unfold workers_of. do 2 f_equal. apply filter_length_ext.
        intros i Hi. apply elem_of_range in Hi. apply selected_agree, Ha. nia. }
      by rewrite Hw, Hj.
    + unfold check_assignment_constraints. by rewrite H0.
Qed.

Lemma decoders_ignore_other_keys_witness :
  let sample : gmap nat Z := {[ 1%nat := 1%Z; 2%nat := 1%Z ]} in
  let sample' : gmap nat Z := {[ 1%nat := 1%Z; 2%nat := 1%Z; 4%nat := 1%Z; 7%nat := 1%Z ]} in
  let weights := [2; 3; 4]%Z in
  let values := [Qc_of_Z 3; Qc_of_Z 4; Qc_of_Z 5] in
  let costs := [[Qc_of_Z 4; Qc_of_Z 1]; [Qc_of_Z 2; Qc_of_Z 3]] in
  (forall u, (u < 3)%nat -> sample' !! u = sample !! u) /\
  (forall u, (u < 2 * 2)%nat -> sample' !! u = sample !! u) /\
  decode_knapsack_solution sample' weights values
  = decode_knapsack_solution sample weights values /\
  decode_assignment_solution sample' costs
  = decode_assignment_solution sample costs /\
  check_assignment_constraints sample' costs
  = check_assignment_constraints sample costs.
Proof.
  intros sample sample' weights values costs.
  assert (H : forall u, (u < 4)%nat -> sample' !! u = sample !! u).
  { intros u Hu.
    destruct u as [|[|[|[|u]]]]; [by vm_compute .. | lia]. }
  split; [intros u Hu; apply H; lia|]. split; [exact H|].
  apply (decoders_ignore_other_keys sample sample' weights values costs).
  - intros u Hu. apply H. simpl in Hu. lia.
  - exact H.
Defined.

Lemma decode_knapsack_check_agree sample weights values chosen_items
      total_weight total_value capacity :
  decode_knapsack_solution sample weights values
  = Some (chosen_items, total_weight, total_value) ->
  check_knapsack_constraints sample weights capacity
  = Some ((total_weight <=? capacity)%Z, total_weight).
Proof.
  unfold decode_knapsack_solution.
  rewrite decode_knapsack_solution_weights. simpl.
  destruct (mapM _ _) as [vs|]; simpl; [|done].
  intros [= _ <- _].
  pose proof (sumZ_picked (fun i => selected sample i) weights 0) as Hs.
  simpl in Hs. rewrite check_knapsack_constraints_eq.
  unfold selected_weight. by rewrite Hs.
Qed.

(** ** The histogram *)

Lemma histogram_sorted record :
  StronglySorted (fun b1 b2 => energy b1 < energy b2) (build_energy_histogram record).
Proof.
  apply sorted_strict; [apply sorted_sorted|].
  set (rows := map (fun r => (rec_energy r, rec_num_occurrences r)) record).
  destruct (energy_counts_spec rows [] (NoDup_nil_2 (A := Qc))) as (Hnd & _).
  rewrite (build_energy_histogram_permutation record).
  fold rows. by rewrite (proj1 (bin_fields _)).
Qed.

Lemma elem_of_histogram record b :
  b ∈ build_energy_histogram record
  <-> (exists r, r ∈ record /\ rec_energy r = energy b) /\
      count b = occurrences_of (energy b) record.
Proof.
  rewrite (build_energy_histogram_permutation record).
  set (rows := map (fun r => (rec_energy r, rec_num_occurrences r)) record).
  destruct (energy_counts_spec rows [] (NoDup_nil_2 (A := Qc)))
    as (Hnd & Hkeys & Hcount & _).
  set (d := foldl _ _ rows) in *.
  assert (Hocc : forall e, stored_count d e = occurrences_of e record).
  { intros e. rewrite Hcount. unfold rows. by rewrite occurrences_of_rows. }
  assert (Hen : forall e, e ∈ map fst d <-> exists r, r ∈ record /\ rec_energy r = e).
  { intros e. rewrite Hkeys. unfold rows. rewrite map_map. simpl. split.
    - intros [H|H]; [by apply elem_of_nil in H|].
      apply list_elem_of_fmap in H as (r & -> & Hr). by exists r.
    - intros (r & Hr & <-). right. by apply (list_elem_of_fmap_2 rec_energy). }
  rewrite elem_of_bins. split.
  - intros Hb. split.
    + apply Hen. by apply (list_elem_of_fmap_2 fst) in Hb.
    + by rewrite <- Hocc, (stored_count_NoDup d _ _ Hnd Hb).
  - intros [Hr Hc]. apply Hen in Hr.
    apply list_elem_of_fmap in Hr as ([e c] & He & Hin). simpl in He. subst e.
    rewrite Hc, <- Hocc, (stored_count_NoDup d _ _ Hnd Hin). done.
Qed.

(** Two strictly ascending lists with the same elements are equal. *)
Lemma sorted_unique {A} (key : A -> Qc) (l1 l2 : list A) :
  StronglySorted (fun a b => key a < key b) l1 ->
  StronglySorted (fun a b => key a < key b) l2 ->
  (forall x, x ∈ l1 <-> x ∈ l2) ->
  l1 = l2.
Proof.
  revert l2. induction l1 as [|a l1 IH]; intros l2 H1 H2 Hel.
  - destruct l2 as [|b l2]; [done|]. exfalso.
    apply (not_elem_of_nil b), Hel. left.
  - destruct l2 as [|b l2].
    { exfalso. apply (not_elem_of_nil a), Hel. left. }
    apply StronglySorted_inv in H1 as [H1 Ha].
    apply StronglySorted_inv in H2 as [H2 Hb].
    rewrite list.Forall_forall in Ha, Hb.
    assert (a = b) as ->.
    { assert (Hab : a ∈ b :: l2) by (apply Hel; left).
      assert (Hba : b ∈ a :: l1) by (apply Hel; left).
      apply elem_of_cons in Hab as [->|Hab]; [done|].
      apply elem_of_cons in Hba as [->|Hba]; [done|].
      exfalso. apply (Qclt_not_le _ _ (Ha b Hba)), Qclt_le_weak, Hb, Hab. }
    f_equal. apply IH; [done | done|].
    intros x. split.
    + intros Hx. assert (Hx' : x ∈ b :: l2) by (apply Hel; by right).
      apply elem_of_cons in Hx' as [->|Hx']; [|done].
      exfalso. apply (Qclt_not_le _ _ (Ha b Hx)). apply Qcle_refl.
    + intros Hx. assert (Hx' : x ∈ b :: l1) by (apply Hel; by right).
      apply elem_of_cons in Hx' as [->|Hx']; [|done].
      exfalso. apply (Qclt_not_le _ _ (Hb b Hx)). apply Qcle_refl.
Qed.




Lemma occurrences_of_rows_of bins b :
  NoDup (map energy bins) -> b ∈ bins ->
  occurrences_of (energy b) (rows_of bins) = count b.
Proof.
  unfold occurrences_of, rows_of.
  induction bins as [|a bins IH]; simpl; intros Hnd Hb; [by apply elem_of_nil in Hb|].
  apply list.NoDup_cons in Hnd as [Ha Hnd].
  apply elem_of_cons in Hb as [->|Hb].
  - rewrite bool_decide_true by done. simpl.
    assert (List.filter (fun r => bool_decide (rec_energy r = energy a))
              (map (fun b => {| rec_energy := energy b; rec_num_occurrences := count b |})
                   bins) = []) as ->.
    { clear -Ha. induction bins as [|c bins IH]; simpl; [done|].
      rewrite bool_decide_false.
      - apply IH. intros H. apply Ha. simpl. by right.
      - simpl. intros E. apply Ha. simpl. rewrite <- E. left. }
    simpl. lia.
  - rewrite bool_decide_false; [by apply IH|].
    simpl. intros E. apply Ha. rewrite E. by apply list_elem_of_fmap_2.
Qed.

Lemma sorted_NoDup {A} (key : A -> Qc) (l : list A) :
  StronglySorted (fun a b => key a < key b) l -> NoDup (map key l).
Proof.
  induction 1 as [|a l _ IH Ha]; simpl; [constructor|].
  apply list.NoDup_cons. split; [|done].
  intros Hin. apply list_elem_of_fmap in Hin as (b & E & Hb).
  rewrite list.Forall_forall in Ha. specialize (Ha b Hb). rewrite <- E in Ha.
  by apply Qclt_not_le in Ha; apply Ha, Qcle_refl.
Qed.

(** X14.  A histogram is a fixed point of [build_energy_histogram]: reading
    its bins as records (energy, count) and aggregating again returns the
    same bins. *)
Theorem build_energy_histogram_idempotent record :
  build_energy_histogram (rows_of (build_energy_histogram record))
  = build_energy_histogram record.
Proof.
  set (bins := build_energy_histogram record).
  pose proof (histogram_sorted record) as Hs. fold bins in Hs.
  pose proof (sorted_NoDup energy bins Hs) as Hnd.
  apply (sorted_unique energy); [apply histogram_sorted | done |].
  intros b. rewrite elem_of_histogram. split.
  - intros [(r & Hr & He) Hc].
    apply list_elem_of_fmap in Hr as (b' & -> & Hb'). simpl in He.
    rewrite <- He, (occurrences_of_rows_of bins b' Hnd Hb') in Hc.
    destruct b as [e c], b' as [e' c']. simpl in *. by subst.
  - intros Hb. split.
    + exists {| rec_energy := energy b; rec_num_occurrences := count b |}.
      split; [|done]. by apply (list_elem_of_fmap_2 (fun b => Build_Row (energy b) (count b))).
    + by rewrite (occurrences_of_rows_of bins b Hnd Hb).
Qed.

Lemma elem_of_histogram_energies record e :
  e ∈ map energy (build_energy_histogram record) <-> e ∈ map rec_energy record.
Proof.
  split.
  - intros H. apply list_elem_of_fmap in H as (b & -> & Hb).
    apply elem_of_histogram in Hb as [(r & Hr & <-) _].
    by apply list_elem_of_fmap_2.
  - intros H. apply list_elem_of_fmap in H as (r & -> & Hr).
    set (b := {| energy := rec_energy r;
                 count := occurrences_of (rec_energy r) record |}).
    change (rec_energy r) with (energy b).
    apply list_elem_of_fmap_2, elem_of_histogram. split; [by exists r | done].
Qed.

Lemma occurrences_of_pos e record :
  Forall (fun r => (0 < rec_num_occurrences r)%Z) record ->
  (exists r, r ∈ record /\ rec_energy r = e) ->
  (0 < occurrences_of e record)%Z.
Proof.
  unfold occurrences_of. intros Hpos (r & Hr & He).
  induction Hpos as [|a record Ha Hpos IH]; [by apply elem_of_nil in Hr|].
  simpl.
  assert (Hnn : (0 <= sumZ (map rec_num_occurrences
                   (List.filter (fun r => bool_decide (rec_energy r = e)) record)))%Z).
  { clear -Hpos. induction Hpos as [|b record Hb _ IH]; simpl; [done|].
    destruct (bool_decide _); simpl; lia. }
  apply elem_of_cons in Hr as [->|Hr].
  - rewrite bool_decide_true by done. simpl. lia.
  - destruct (bool_decide _); simpl; [lia | by apply IH].
Qed.

(** X15.  [build_energy_histogram] returns one bin per distinct energy of
    the records, hence at most as many bins as records, and no bin exactly
    when there is no record; when every record has a positive
    [num_occurrences], every bin has a positive count. *)
Theorem build_energy_histogram_bins record :
  length (build_energy_histogram record)
  = length (remove_dups (map rec_energy record)) /\
  (length (build_energy_histogram record) <= length record)%nat /\
  (build_energy_histogram record = [] <-> record = []) /\
  (Forall (fun r => (0 < rec_num_occurrences r)%Z) record ->
   Forall (fun b => (0 < count b)%Z) (build_energy_histogram record)).
Proof.
  pose proof (sorted_NoDup energy _ (histogram_sorted record)) as Hnd.
  assert (Hlen : length (build_energy_histogram record)
                 = length (remove_dups (map rec_energy record))).
  { rewrite <- (length_map energy). apply Permutation_length.
    apply NoDup_Permutation; [done | apply NoDup_remove_dups|].
    intros e. by rewrite elem_of_remove_dups, elem_of_histogram_energies. }
  split; [done|]. split; [|split].
  - rewrite <- (length_map energy), <- (length_map rec_energy record).
    apply submseteq_length, NoDup_submseteq; [done|].
    intros e. by rewrite elem_of_histogram_energies.
  - split.
    + intros Hnil. destruct record as [|r record]; [done|]. exfalso.
      assert (H : rec_energy r ∈ map energy (build_energy_histogram (r :: record)))
        by (apply elem_of_histogram_energies; left).
      rewrite Hnil in H. by apply elem_of_nil in H.
    + by intros ->.
  - intros Hpos. apply list.Forall_forall. intros b Hb.
    apply elem_of_histogram in Hb as [Hr ->]. by apply occurrences_of_pos.
Qed.

(** ** The builders, the solvers and the handlers *)

Import Solvers Api.

(** *** The JijModeling builders *)

Lemma existsb_ragged (costs : list (list Qc)) n :
  existsb (fun row => negb (length row =? n)%nat) costs = false
  <-> forall row, row ∈ costs -> length row = n.
Proof.
  rewrite <- not_true_iff_false, existsb_exists. split.
  - intros H row Hrow. destruct (Nat.eqb_spec (length row) n) as [|Hne]; [done|].
    exfalso. apply H. exists row. split; [by apply list_elem_of_In|].
    by apply negb_true_iff, Nat.eqb_neq.
  - intros H (row & Hrow & Hneg). apply negb_true_iff, Nat.eqb_neq in Hneg.
    apply Hneg, H. by apply list_elem_of_In.
Qed.

Lemma build_assignment_accepts eval_problem costs penalty_row penalty_col :
  (exists Q, Assignments.build_assignment_qubo_jijmodeling eval_problem costs penalty_row penalty_col
             = inr Q)
  <-> costs <> [] /\
      forall row, row ∈ costs -> length row = length (default [] (costs !! 0%nat)).
Proof.
  unfold Assignments.build_assignment_qubo_jijmodeling.
  destruct costs as [|row0 rest]; [split; [by intros [Q ?] | by intros [? _]]|].
  simpl default.
  destruct (existsb _ (row0 :: rest)) eqn:E.
  - split; [by intros [Q ?]|]. intros [_ H]. apply (proj2 (existsb_ragged _ _)) in H. congruence.
  - pose proof (proj1 (existsb_ragged _ _) E) as E'. destruct (Assignments.to_qubo _ _) as [qubo offset].
    split; [intros _; by split | intros _; by eexists].
Qed.

Lemma build_assignment_qubo_jijmodeling_ragged
      eval_problem costs penalty_row penalty_col :
  Assignments.build_assignment_qubo_jijmodeling eval_problem costs penalty_row penalty_col
  = inl Assignments.RaggedCosts
  <-> costs <> [] /\
      exists row, row ∈ costs /\
                  length row <> length (default [] (costs !! 0%nat)).
Proof.
  unfold Assignments.build_assignment_qubo_jijmodeling.
  destruct costs as [|row0 rest]; [split; [done | by intros [? _]]|].
  simpl default. destruct (existsb _ (row0 :: rest)) eqn:E.
  - split; [|done]. intros _. split; [done|].
    apply existsb_exists in E as (row & Hrow & Hneg).
    exists row. split; [by apply list_elem_of_In|].
    by apply negb_true_iff, Nat.eqb_neq in Hneg.
  - pose proof (proj1 (existsb_ragged _ _) E) as E'. destruct (Assignments.to_qubo _ _).
    split; [done|]. intros (_ & row & Hrow & Hne). exfalso. by apply Hne, E'.
Qed.


Lemma penalty_weights_snoc cs c penalty_row penalty_col :
  Assignments.penalty_weights (cs ++ [c]) penalty_row penalty_col
  = let pw := Assignments.penalty_weights cs penalty_row penalty_col in
    if String.eqb (Assignments.name c) "row_onehot" then <[Assignments.id c := penalty_row]> pw
    else if String.eqb (Assignments.name c) "col_onehot" then <[Assignments.id c := penalty_col]> pw
    else pw.
Proof. unfold Assignments.penalty_weights. by rewrite foldl_snoc. Qed.

(** X17.  When the constraint ids are distinct, the [penalty_weights]
    dictionary maps the id of every constraint named [row_onehot] to
    [penalty_row], of every constraint named [col_onehot] to [penalty_col],
    and holds no other key: constraints of another name get no weight. *)
Theorem penalty_weights_by_name cs penalty_row penalty_col :
  NoDup (map Assignments.id cs) ->
  (forall c, c ∈ cs ->
     Assignments.penalty_weights cs penalty_row penalty_col !! Assignments.id c
     = if String.eqb (Assignments.name c) "row_onehot" then Some penalty_row
       else if String.eqb (Assignments.name c) "col_onehot" then Some penalty_col
       else None) /\
  (forall k, k ∉ map Assignments.id cs ->
             Assignments.penalty_weights cs penalty_row penalty_col !! k = None).
Proof.
  induction cs as [|c cs IH] using rev_ind; intros Hnd.
  - split; [intros c Hc; by apply elem_of_nil in Hc | intros k _; apply lookup_empty].
  - rewrite map_app in Hnd. apply list.NoDup_app in Hnd as (Hnd & Hdisj & _).
    destruct (IH Hnd) as [IH1 IH2].
    assert (Hfresh : Assignments.id c ∉ map Assignments.id cs).
    { intros Hin. apply (Hdisj (Assignments.id c) Hin). simpl. left. }
    assert (Hstep : forall k,
      Assignments.penalty_weights (cs ++ [c]) penalty_row penalty_col !! k
      = if decide (k = Assignments.id c)
        then (if String.eqb (Assignments.name c) "row_onehot" then Some penalty_row
              else if String.eqb (Assignments.name c) "col_onehot" then Some penalty_col
              else None)
        else Assignments.penalty_weights cs penalty_row penalty_col !! k).
    { intros k. rewrite penalty_weights_snoc. simpl.
      destruct (decide (k = Assignments.id c)) as [->|Hne].
      - destruct (String.eqb (Assignments.name c) "row_onehot");
          [by rewrite lookup_insert_eq|].
        destruct (String.eqb (Assignments.name c) "col_onehot");
          [by rewrite lookup_insert_eq | by apply IH2].
      - destruct (String.eqb (Assignments.name c) "row_onehot");
          [by rewrite lookup_insert_ne|].
        destruct (String.eqb (Assignments.name c) "col_onehot");
          [by rewrite lookup_insert_ne | done]. }
    split.
    + intros c' Hc'. rewrite Hstep. apply elem_of_app in Hc' as [Hc'|Hc'].
      * rewrite decide_False; [by apply IH1|].
        intros E. apply Hfresh. rewrite <- E. by apply list_elem_of_fmap_2.
      * apply list_elem_of_singleton in Hc' as ->. by rewrite decide_True.
    + intros k Hk. rewrite Hstep. rewrite map_app, elem_of_app in Hk.
      rewrite decide_False; [apply IH2; tauto|].
      intros ->. apply Hk. right. simpl. left.
Qed.

Lemma penalty_weights_by_name_witness :
  let cs := [ {| Assignments.id := 0; Assignments.name := "row_onehot" |};
              {| Assignments.id := 1; Assignments.name := "row_onehot" |};
              {| Assignments.id := 2; Assignments.name := "col_onehot" |};
              {| Assignments.id := 5; Assignments.name := "budget" |} ] in
  NoDup (map Assignments.id cs) /\
  (forall c, c ∈ cs ->
     Assignments.penalty_weights cs (Qc_of_Z 5) (Qc_of_Z 7) !! Assignments.id c
     = if String.eqb (Assignments.name c) "row_onehot" then Some (Qc_of_Z 5)
       else if String.eqb (Assignments.name c) "col_onehot" then Some (Qc_of_Z 7)
       else None) /\
  (forall k, k ∉ map Assignments.id cs ->
             Assignments.penalty_weights cs (Qc_of_Z 5) (Qc_of_Z 7) !! k = None).
Proof.
  intros cs.
  assert (H : NoDup (map Assignments.id cs)).
  { apply NoDup_ListNoDup. repeat constructor; simpl; intuition lia. }
  split; [exact H|].
  apply (penalty_weights_by_name cs (Qc_of_Z 5) (Qc_of_Z 7) H).
Defined.


Section SolverFacts.
Context {Sampler BQM Response SampleSet : Type}.
Implicit Types (w : World Sampler BQM Response SampleSet)
         (lib : Library Sampler BQM Response SampleSet).

Lemma QASolver_init_config lib env use_greedy s :
  QASolver_init lib env use_greedy = inr s ->
  base s = SolverBase_init.
Proof.
  unfold QASolver_init. destruct (negb _); [done|].
  destruct (DWaveSampler lib _ _ _); simpl; [done|]. by intros [= <-].
Qed.

Lemma get_solver_inr w name use_greedy s :
  get_solver w name use_greedy = inr s ->
  (name = "sa" \/ name = "sqa" \/ name = "qa") /\
  sample_config (base s) = {[ "num_reads" := PyInt 10 ]}.
Proof.
  unfold get_solver.
  destruct (String.eqb_spec name "sa") as [->|_]; [intros [= <-]; by split; [left|]|].
  destruct (String.eqb_spec name "sqa") as [->|_];
    [intros [= <-]; by split; [right; left|]|].
  destruct (String.eqb_spec name "qa") as [->|_]; [|done].
  destruct (QASolver_init _ _ _) as [m|s'] eqn:E; [done|]. intros [= <-].
  split; [by right; right|]. by rewrite (QASolver_init_config _ _ _ _ E).
Qed.

Lemma get_solver_inl w name use_greedy e :
  get_solver w name use_greedy = inl e ->
  exists detail, e = HTTPException 500 detail \/ e = HTTPException 400 detail.
Proof.
  unfold get_solver.
  destruct (String.eqb name "sa"); [done|].
  destruct (String.eqb name "sqa"); [done|].
  destruct (String.eqb name "qa").
  - destruct (QASolver_init _ _ _) as [m|s']; [|done].
    intros [= <-]. eexists. by left.
  - intros [= <-]. eexists. by right.
Qed.


(** X20.  [_find_embedding] returns only the embedding [find_embedding]
    computed, and only when it is not empty and its keys are exactly the
    variables of the BQM; an empty embedding raises [No embedding found.];
    a BQM without variables is always refused; and when the embedding covers
    only endpoints of quadratic terms, a BQM with a variable that occurs in
    no quadratic term is always refused. *)
Theorem find_embedding_checked lib (sampler : Sampler) (bqm : BQM) :
  let emb := find_embedding lib (quadratic_keys lib bqm) (edgelist lib sampler) in
  (forall embedding, _find_embedding lib sampler bqm = inr embedding ->
     embedding = emb /\ embedding <> ∅ /\ dom embedding = variables lib bqm) /\
  (emb = ∅ -> _find_embedding lib sampler bqm = inl (ValueError "No embedding found.")) /\
  (variables lib bqm = ∅ -> exists e, _find_embedding lib sampler bqm = inl e) /\
  ((forall v, v ∈ dom emb ->
      exists e, e ∈ quadratic_keys lib bqm /\ (v = e.1 \/ v = e.2)) ->
   (exists v, v ∈ variables lib bqm /\
              forall e, e ∈ quadratic_keys lib bqm -> v <> e.1 /\ v <> e.2) ->
   exists e, _find_embedding lib sampler bqm = inl e).
Proof.
  intros emb. unfold _find_embedding. fold emb.
  split; [|split; [|split]].
  - intros embedding. case_bool_decide as Hempty; [done|].
    case_bool_decide as Hdom; simpl; [|done]. by intros [= <-].
  - intros ->. by rewrite bool_decide_true.
  - intros Hvars. case_bool_decide as Hempty; [by eexists|].
    case_bool_decide as Hdom; simpl; [|by eexists].
    exfalso. apply Hempty. apply dom_empty_iff_L. by rewrite Hdom.
  - intros Hkeys (v & Hv & Hiso).
    case_bool_decide as Hempty; [by eexists|].
    case_bool_decide as Hdom; simpl; [|by eexists].
    exfalso. rewrite <- Hdom in Hv.
    destruct (Hkeys v Hv) as (e & He & Hve).
    destruct (Hiso e He) as [H1 H2]. tauto.
Qed.

End SolverFacts.

Lemma and_then_inr {E A B} (x : E + A) (k : A -> E + B) b :
  and_then x k = inr b -> exists a, x = inr a /\ k a = inr b.
Proof. destruct x as [e|a]; simpl; [done|]. intros H. by exists a. Qed.

Lemma and_then_inl {E A B} (x : E + A) (k : A -> E + B) e :
  and_then x k = inl e -> x = inl e \/ exists a, x = inr a /\ k a = inl e.
Proof. destruct x as [e'|a]; simpl; [intros [= ->]; by left|]. intros H. right. by exists a. Qed.

Lemma indexing_inr {A} (x : option A) a : indexing x = inr a -> x = Some a.
Proof. destruct x; simpl; [by intros [= ->] | done]. Qed.

Lemma solve_not_IndexError {Sampler BQM Response SampleSet}
      (lib : Library Sampler BQM Response SampleSet) s Q cfg :
  solve lib s Q cfg <> inl IndexError.
Proof.
  destruct s as [self|g self|sampler g self]; simpl; [done | done|].
  unfold _solve_with_advantage, _find_embedding, _embed_bqm.
  case_bool_decide; [done|]. case_bool_decide; simpl; [|done].
  destruct (embed_bqm lib _ _ _); simpl; [|done].
  destruct (unembed_sampleset lib _ _ _); done.
Qed.

Section Handlers.
Context {Sampler BQM Response SampleSet : Type}.
Implicit Types (w : World Sampler BQM Response SampleSet).

(** X21.  [solve_knapsack] answers a request whose lists differ in length
    with [HTTPException] 400; with lists of equal length and a capacity that
    is not positive, the builder's [ValueError] escapes the handler (no
    [HTTPException]); and unless [sampleset.first] raises it, the handler
    never raises [IndexError]: the decoders cannot fail once the lengths are
    checked. *)
Theorem solve_knapsack_errors w req :
  (length (k_weights req) <> length (k_values req) ->
   exists detail, solve_knapsack w req = inl (HTTPException 400 detail)) /\
  (length (k_weights req) = length (k_values req) -> (k_capacity req <= 0)%Z ->
   exists message, solve_knapsack w req = inl (ValueError message)) /\
  ((forall sampleset, first_sample w sampleset <> inl IndexError) ->
   solve_knapsack w req <> inl IndexError).
Proof.
  unfold solve_knapsack. split; [|split].
  - intros Hne. rewrite (proj2 (Nat.eqb_neq _ _) Hne). simpl. by eexists.
  - intros Hlen Hcap. rewrite Hlen, Nat.eqb_refl. simpl.
    unfold build_knapsack_qubo_jijmodeling. rewrite Hlen, Nat.eqb_refl. simpl.
    destruct (Z.leb_spec (k_capacity req) 0); [|lia]. simpl. by eexists.
  - intros Hfirst.
    destruct (Nat.eqb_spec (length (k_weights req)) (length (k_values req)))
      as [Hlen|]; simpl; [|done].
    intros H.
    apply and_then_inl in H as [H|(Q & HQ & H)].
    { destruct (build_knapsack_qubo_jijmodeling _ _ _ _ _) as [[]|]; done. }
    apply and_then_inl in H as [H|(s & Hs & H)].
    { destruct (get_solver_inl w _ _ _ H) as (d & [?|?]); done. }
    apply and_then_inl in H as [H|(ss & Hss & H)].
    { by apply solve_not_IndexError in H. }
    apply and_then_inl in H as [H|(best & Hbest & H)].
    { by apply Hfirst in H. }
    destruct (decode_knapsack_solution_total best (k_weights req) (k_values req) Hlen)
      as [[[chosen tw] tv] Hdec].
    rewrite Hdec in H. simpl in H.
    rewrite check_knapsack_constraints_eq in H. simpl in H. done.
Qed.

(** X22.  Every response of [solve_knapsack] comes from a request with
    lists of equal length, a positive capacity and a solver name among [sa],
    [sqa], [qa], which it echoes; its items, weight and value are the decoding
    of the best sample, its histogram that of the sample set; [feasible] holds
    exactly when the reported weight is at most the capacity, and the single
    constraint entry repeats [feasible], the weight and the capacity. *)
Theorem solve_knapsack_response w req resp :
  solve_knapsack w req = inr resp ->
  length (k_weights req) = length (k_values req) /\
  (0 < k_capacity req)%Z /\
  (kr_solver resp = k_solver req /\
   (k_solver req = "sa" \/ k_solver req = "sqa" \/ k_solver req = "qa")) /\
  (exists sampleset best_sample,
      first_sample w sampleset = inr best_sample /\
      decode_knapsack_solution best_sample (k_weights req) (k_values req)
      = Some (chosen_items resp, total_weight resp, total_value resp) /\
      kr_energy_histogram resp = build_energy_histogram (record w sampleset)) /\
  (kr_feasible resp = true <-> (total_weight resp <= k_capacity req)%Z) /\
  kr_constraints resp
  = [ {| cc_name := "Weight_constraint";
         satisfied := kr_feasible resp;
         value := Qc_of_Z (total_weight resp);
         bound := Some (Qc_of_Z (k_capacity req));
         detail := Some ("Total weight " +:+ pretty (total_weight resp)
                         +:+ " / Capacity " +:+ pretty (k_capacity req)) |} ].
Proof.
  unfold solve_knapsack.
  destruct (Nat.eqb_spec (length (k_weights req)) (length (k_values req)))
    as [Hlen|]; simpl; [|done].
  intros H.
  apply and_then_inr in H as (Q & HQ & H).
  apply and_then_inr in H as (s & Hs & H).
  apply and_then_inr in H as (ss & Hss & H).
  apply and_then_inr in H as (best & Hbest & H).
  apply and_then_inr in H as ([[chosen tw] tv] & Hdec & H).
  apply and_then_inr in H as ([feasible twc] & Hchk & H).
  apply indexing_inr in Hdec. apply indexing_inr in Hchk.
  injection H as <-. simpl.
  rewrite (decode_knapsack_check_agree _ _ _ _ _ _ (k_capacity req) Hdec) in Hchk.
  injection Hchk as <- <-.
  assert (Hcap : (0 < k_capacity req)%Z).
  { unfold build_knapsack_qubo_jijmodeling in HQ.
    rewrite Hlen, Nat.eqb_refl in HQ. simpl in HQ.
    destruct (Z.leb_spec (k_capacity req) 0); [done | lia]. }
  split; [done|]. split; [done|].
  destruct (get_solver_inr w _ _ _ Hs) as [Hname _].
  split; [done|].
  split; [by exists ss, best|].
  split; [apply Z.leb_le | done].
Qed.

Lemma forallb_imap_satisfied (f : nat -> Z -> ConstraintCheck) (counts : list Z) :
  (forall i c, satisfied (f i c) = (c =? 1)%Z) ->
  forallb satisfied (imap f counts) = forallb (fun c => (c =? 1)%Z) counts.
Proof.
  revert f. induction counts as [|c counts IH]; intros f Hf; simpl; [done|].
  rewrite Hf. f_equal. apply IH. intros i c'. apply Hf.
Qed.

Lemma Forall_imap_bound (f : nat -> Z -> ConstraintCheck) (counts : list Z) :
  (forall i c, bound (f i c) = Some 1) ->
  Forall (fun c => bound c = Some 1) (imap f counts).
Proof.
  revert f. induction counts as [|c counts IH]; intros f Hf; simpl; constructor.
  - apply Hf.
  - apply IH. intros i c'. apply Hf.
Qed.

(** X23.  [solve_assignment] answers an empty matrix or an empty first row
    with [HTTPException] 400; a ragged matrix with a non-empty first row
    makes the builder's [ValueError] escape the handler; and unless
    [sampleset.first] raises it, the handler never raises [IndexError]. *)
Theorem solve_assignment_errors w req :
  (a_costs req = [] \/ a_costs req !! 0%nat = Some [] ->
   exists detail, solve_assignment w req = inl (HTTPException 400 detail)) /\
  ((exists row0, a_costs req !! 0%nat = Some row0 /\ row0 <> [] /\
                 exists row, row ∈ a_costs req /\ length row <> length row0) ->
   exists message, solve_assignment w req = inl (ValueError message)) /\
  ((forall sampleset, first_sample w sampleset <> inl IndexError) ->
   solve_assignment w req <> inl IndexError).
Proof.
  unfold solve_assignment. split; [|split].
  - intros [->|H0]; [by eexists|].
    destruct (a_costs req) as [|row0 rest]; [by eexists|].
    injection H0 as ->. by eexists.
  - intros (row0 & H0 & Hne & row & Hrow & Hlen).
    destruct (a_costs req) as [|row0' rest] eqn:Hc; [done|].
    injection H0 as ->. destruct row0 as [|x row0]; [done|].
    destruct (build_assignment_qubo_jijmodeling_ragged (eval_problem w)
                ((x :: row0) :: rest) (penalty_row req) (penalty_col req)) as [_ Hr].
    rewrite Hr; [by eexists|]. split; [done|]. by exists row.
  - intros Hfirst.
    destruct (match a_costs req with
              | [] => true
              | row0 :: _ => match row0 with [] => true | _ => false end
              end); [done|].
    intros H.
    apply and_then_inl in H as [H|(Q & HQ & H)].
    { destruct (Assignments.build_assignment_qubo_jijmodeling _ _ _ _) as [[]|]; done. }
    apply and_then_inl in H as [H|(s & Hs & H)].
    { destruct (get_solver_inl w _ _ _ H) as (d & [?|?]); done. }
    apply and_then_inl in H as [H|(ss & Hss & H)].
    { by apply solve_not_IndexError in H. }
    apply and_then_inl in H as [H|(best & Hbest & H)].
    { by apply Hfirst in H. }
    assert (Hacc : exists Q', Assignments.build_assignment_qubo_jijmodeling (eval_problem w)
                     (a_costs req) (penalty_row req) (penalty_col req) = inr Q').
    { destruct (Assignments.build_assignment_qubo_jijmodeling _ _ _ _); [done | by eexists]. }
    apply build_assignment_accepts in Hacc as [Hne Hrect].
    destruct (decode_assignment_solution_total best (a_costs req) Hne Hrect)
      as [[asg tc] Hdec].
    rewrite Hdec in H. simpl in H.
    destruct (a_costs req !! 0%nat) as [row0|] eqn:H0;
      [|by destruct (a_costs req)].
    rewrite (check_assignment_constraints_eq best _ row0 H0) in H. done.
Qed.

(** X24.  Every response of [solve_assignment] comes from a non-empty
    rectangular matrix with non-empty rows; it echoes the solver name; its
    pairs and cost are the decoding of the best sample and its histogram that
    of the sample set; [feasible] is the one computed by
    [check_assignment_constraints], the constraint list has one entry per
    worker followed by one per job, each with bound 1, and [feasible] is the
    conjunction of their [satisfied] fields; a feasible response has as many
    workers as jobs and one pair per worker. *)
Theorem solve_assignment_response w req resp :
  solve_assignment w req = inr resp ->
  let n_workers := length (a_costs req) in
  let n_jobs := length (default [] (a_costs req !! 0%nat)) in
  ((0 < n_workers)%nat /\ (0 < n_jobs)%nat /\
   forall row, row ∈ a_costs req -> length row = n_jobs) /\
  ar_solver resp = a_solver req /\
  (exists sampleset best_sample worker_counts job_counts,
      first_sample w sampleset = inr best_sample /\
      decode_assignment_solution best_sample (a_costs req)
      = Some (assignments resp, total_cost resp) /\
      ar_energy_histogram resp = build_energy_histogram (record w sampleset) /\
      check_assignment_constraints best_sample (a_costs req)
      = Some (ar_feasible resp, worker_counts, job_counts) /\
      ar_constraints resp = imap worker_check worker_counts
                            ++ imap job_check job_counts) /\
  length (ar_constraints resp) = (n_workers + n_jobs)%nat /\
  ar_feasible resp = forallb satisfied (ar_constraints resp) /\
  Forall (fun c => bound c = Some 1) (ar_constraints resp) /\
  (ar_feasible resp = true ->
   n_workers = n_jobs /\ length (assignments resp) = n_workers).
Proof.
  intros H n_workers n_jobs. unfold solve_assignment in H.
  destruct (match a_costs req with
            | [] => true
            | row0 :: _ => match row0 with [] => true | _ => false end
            end) eqn:Hb; [done|].
  assert (Hcosts : exists x row0 rest, a_costs req = (x :: row0) :: rest).
  { destruct (a_costs req) as [|[|x row0] rest]; [done | done | eauto]. }
  destruct Hcosts as (x & row0 & rest & Hcosts).
  apply and_then_inr in H as (Q & HQ & H).
  apply and_then_inr in H as (s & Hs & H).
  apply and_then_inr in H as (ss & Hss & H).
  apply and_then_inr in H as (best & Hbest & H).
  apply and_then_inr in H as ([asg tc] & Hdec & H).
  apply and_then_inr in H as ([[feasible wc] jc] & Hchk & H).
  apply indexing_inr in Hdec. apply indexing_inr in Hchk.
  injection H as <-. simpl.
  assert (Hacc : exists Q', Assignments.build_assignment_qubo_jijmodeling (eval_problem w)
                   (a_costs req) (penalty_row req) (penalty_col req) = inr Q').
  { destruct (Assignments.build_assignment_qubo_jijmodeling _ _ _ _); [done | by eexists]. }
  apply build_assignment_accepts in Hacc as [Hne Hrect].
  assert (H0 : a_costs req !! 0%nat = Some (x :: row0)) by (by rewrite Hcosts).
  assert (Hnj : n_jobs = S (length row0)) by (unfold n_jobs; by rewrite H0).
  assert (Hnw : n_workers = S (length rest)) by (unfold n_workers; by rewrite Hcosts).
  pose proof Hchk as Hchk'.
  apply check_assignment_constraints_inv in Hchk' as (row0' & H0' & Hwc & Hjc & Hf).
  rewrite H0 in H0'. injection H0' as <-.
  split; [split; [lia|]; split; [lia | done]|].
  split; [done|].
  split; [by exists ss, best, wc, jc|].
  split.
  { rewrite length_app, !length_imap, Hwc, Hjc, !length_map_range.
    unfold n_jobs. by rewrite H0. }
  split.
  { rewrite forallb_app, !forallb_imap_satisfied by done. done. }
  split.
  { apply Forall_app. split; by apply Forall_imap_bound. }
  intros Hfeas.
  destruct (check_assignment_feasible_square best (a_costs req) feasible wc jc Hchk Hfeas)
    as [Hsq Hlen].
  unfold n_workers, n_jobs. split; [done|]. by apply (Hlen asg tc).
Qed.

End Handlers.

Lemma solve_knapsack_response_witness :
  let w := example_world [ {| rec_energy := Qc_of_Z (-7); rec_num_occurrences := 3 |} ]
                         {[ 0%nat := 1%Z; 1%nat := 1%Z ]} in
  let req := {| k_weights := [2; 3; 4]%Z;
                k_values := [Qc_of_Z 3; Qc_of_Z 4; Qc_of_Z 5];
                k_capacity := 5; k_solver := "sa"; k_num_reads := 100;
                k_penalty := Qc_of_Z 5; k_use_greedy := false |} in
  exists resp,
    solve_knapsack w req = inr resp /\
    length (k_weights req) = length (k_values req) /\
    (0 < k_capacity req)%Z /\
    (kr_solver resp = k_solver req /\
     (k_solver req = "sa" \/ k_solver req = "sqa" \/ k_solver req = "qa")) /\
    (exists sampleset best_sample,
        first_sample w sampleset = inr best_sample /\
        decode_knapsack_solution best_sample (k_weights req) (k_values req)
        = Some (chosen_items resp, total_weight resp, total_value resp) /\
        kr_energy_histogram resp = build_energy_histogram (record w sampleset)) /\
    (kr_feasible resp = true <-> (total_weight resp <= k_capacity req)%Z) /\
    kr_constraints resp
    = [ {| cc_name := "Weight_constraint";
           satisfied := kr_feasible resp;
           value := Qc_of_Z (total_weight resp);
           bound := Some (Qc_of_Z (k_capacity req));
           detail := Some ("Total weight " +:+ pretty (total_weight resp)
                           +:+ " / Capacity " +:+ pretty (k_capacity req)) |} ].
Proof.
  intros w req.
  destruct (solve_knapsack w req) as [e|resp] eqn:H; [by vm_compute in H|].
  exists resp. split; [reflexivity|].
  apply (solve_knapsack_response w req resp H).
Defined.

Lemma solve_assignment_response_witness :
  let w := example_world [ {| rec_energy := Qc_of_Z (-7); rec_num_occurrences := 3 |} ]
                         {[ 1%nat := 1%Z; 2%nat := 1%Z ]} in
  let req := {| a_costs := [[Qc_of_Z 4; Qc_of_Z 1]; [Qc_of_Z 2; Qc_of_Z 3]];
                a_solver := "sqa"; a_num_reads := 100;
                penalty_row := Qc_of_Z 5; penalty_col := Qc_of_Z 5;
                a_use_greedy := true |} in
  exists resp,
    solve_assignment w req = inr resp /\
    let n_workers := length (a_costs req) in
    let n_jobs := length (default [] (a_costs req !! 0%nat)) in
    ((0 < n_workers)%nat /\ (0 < n_jobs)%nat /\
     forall row, row ∈ a_costs req -> length row = n_jobs) /\
    ar_solver resp = a_solver req /\
    (exists sampleset best_sample worker_counts job_counts,
        first_sample w sampleset = inr best_sample /\
        decode_assignment_solution best_sample (a_costs req)
        = Some (assignments resp, total_cost resp) /\
        ar_energy_histogram resp = build_energy_histogram (record w sampleset) /\
        check_assignment_constraints best_sample (a_costs req)
        = Some (ar_feasible resp, worker_counts, job_counts) /\
        ar_constraints resp = imap worker_check worker_counts
                              ++ imap job_check job_counts) /\
    length (ar_constraints resp) = (n_workers + n_jobs)%nat /\
    ar_feasible resp = forallb satisfied (ar_constraints resp) /\
    Forall (fun c => bound c = Some 1) (ar_constraints resp) /\
    (ar_feasible resp = true ->
     n_workers = n_jobs /\ length (assignments resp) = n_workers).
Proof.
  intros w req.
  destruct (solve_assignment w req) as [e|resp] eqn:H; [by vm_compute in H|].
  exists resp. split; [reflexivity|].
  apply (solve_assignment_response w req resp H).
Defined.


Section Solving.
Context {Sampler BQM Response SampleSet : Type}.
Implicit Types (w : World Sampler BQM Response SampleSet).


End Solving.

